(** * Afropair translation pipeline (src/unnamed/part_000): a shallow embedding

    The pipeline is Splitter -> DictionaryLookup -> CorpusRetriever ->
    Referee -> Scorer -> Logger.  This development models the first five
    stages, the coverage metric of DictionaryLookup, the status rule of the
    Logger, the values returned by [translateSentence], and the JavaScript
    built-ins they use; then it states properties of the code.  File and
    console I/O, uuids and timestamps are not modelled.

    Modelling choices.
    - A JavaScript string is its sequence of UTF-16 code units ([list N]).
    - A JavaScript number is [num]: finite values are exact rationals, and
      the IEEE special values +Infinity, -Infinity and NaN are kept with their
      IEEE behaviour.  Rounding of finite values, underflow to 0 and the sign
      of zero are not modelled; the statements about [Math.pow(0.7, n)] bound
      [n] by 1000, where the double value (about 1e-155) is far from
      underflow.
    - A plain JavaScript object ([{}]) is the list of its own properties in
      insertion order; [for..in] visits array-index keys first in ascending
      numeric order, then the other keys in insertion order ([obj_keys]).
      The special key "__proto__" never occurs: tokens come from
      [Splitter.tokenize], which splits on "_" (a punctuation character).
    - A [Map] is an association list in insertion order.
    - [toLowerCase] is modelled on Basic Latin and Latin-1; the punctuation
      class \p{P} on Basic Latin, Latin-1 and General Punctuation. *)

From Stdlib Require Import List String Ascii Bool Arith NArith ZArith QArith Lia.
From Stdlib Require Import Permutation Sorting.Sorted Qround Qabs Qpower Lqa DecimalN.
Import ListNotations.

Open Scope list_scope.

Abbreviation length := List.length (only parsing).

(* ================================================================== *)
(** ** JavaScript strings *)

Definition jsstr := list N.

(** ASCII literal to code units. *)
Definition js (s : string) : jsstr :=
  map (fun a => N_of_ascii a) (list_ascii_of_string s).

Definition jsstr_eqb (a b : jsstr) : bool :=
  if list_eq_dec N.eq_dec a b then true else false.

Definition mem (x : jsstr) (l : list jsstr) : bool := existsb (jsstr_eqb x) l.

(** The JavaScript white-space class [\s] (WhiteSpace and LineTerminator),
    also used by [String.prototype.trim]. *)
Definition is_ws (c : N) : bool :=
  ((9 <=? c) && (c <=? 13))%N || (c =? 32)%N || (c =? 160)%N || (c =? 5760)%N
  || ((8192 <=? c) && (c <=? 8202))%N || (c =? 8232)%N || (c =? 8233)%N
  || (c =? 8239)%N || (c =? 8287)%N || (c =? 12288)%N || (c =? 65279)%N.

(** Unicode general category P (punctuation), on Basic Latin, Latin-1 and
    the General Punctuation block. *)
Definition is_punct (c : N) : bool :=
  existsb (N.eqb c)
    [33;34;35;37;38;39;40;41;42;44;45;46;47;58;59;63;64;91;92;93;95;123;125;
     161;167;171;182;183;187;191]%N
  || ((8208 <=? c) && (c <=? 8231))%N
  || ((8240 <=? c) && (c <=? 8259))%N
  || ((8261 <=? c) && (c <=? 8273))%N
  || ((8275 <=? c) && (c <=? 8286))%N.

(** [String.prototype.toLowerCase] on Basic Latin and Latin-1. *)
Definition lower_unit (c : N) : N :=
  if ((65 <=? c) && (c <=? 90))%N then (c + 32)%N
  else if ((192 <=? c) && (c <=? 222) && negb (c =? 215))%N then (c + 32)%N
  else c.

Definition toLowerCase (s : jsstr) : jsstr := map lower_unit s.

(** [String.prototype.trim]. *)
Fixpoint trim_start (s : jsstr) : jsstr :=
  match s with
  | c :: r => if is_ws c then trim_start r else s
  | [] => []
  end.

Definition trim (s : jsstr) : jsstr := rev (trim_start (rev (trim_start s))).

(** [s.split(/[class]+/)]: split on maximal runs of separator units.  The
    pieces before the first and after the last run are kept, also when
    empty, as JavaScript does. *)
Fixpoint split_runs_aux (p : N -> bool) (s : jsstr) (cur : jsstr) (in_sep : bool)
  : list jsstr :=
  match s with
  | [] => [rev cur]
  | c :: r =>
      if p c then
        if in_sep then split_runs_aux p r [] true
        else rev cur :: split_runs_aux p r [] true
      else split_runs_aux p r (c :: cur) false
  end.

Definition split_runs (p : N -> bool) (s : jsstr) : list jsstr :=
  split_runs_aux p s [] false.

(** [s.split(c)] for a one-unit string separator [c]. *)
Fixpoint split_char_aux (sep : N) (s : jsstr) (cur : jsstr) : list jsstr :=
  match s with
  | [] => [rev cur]
  | c :: r =>
      if (c =? sep)%N then rev cur :: split_char_aux sep r []
      else split_char_aux sep r (c :: cur)
  end.

Definition split_char (sep : N) (s : jsstr) : list jsstr := split_char_aux sep s [].

(** [arr.join(sep)]. *)
Fixpoint join (sep : jsstr) (l : list jsstr) : jsstr :=
  match l with
  | [] => []
  | [x] => x
  | x :: r => x ++ sep ++ join sep r
  end.

Fixpoint is_prefix (p s : jsstr) : bool :=
  match p, s with
  | [], _ => true
  | a :: p', b :: s' => (a =? b)%N && is_prefix p' s'
  | _, [] => false
  end.

(** Number of non-overlapping matches of the literal pattern [pat] in [s],
    left to right: [s.match(/pat/g)] (0 when the match is [null]). *)
Fixpoint count_matches_fuel (fuel : nat) (pat s : jsstr) : nat :=
  match fuel with
  | O => 0
  | S f =>
      match s with
      | [] => 0
      | _ :: r =>
          if is_prefix pat s then S (count_matches_fuel f pat (skipn (length pat) s))
          else count_matches_fuel f pat r
      end
  end.

Definition count_matches (pat s : jsstr) : nat :=
  count_matches_fuel (length s) pat s.

(** Decimal digits of a natural number. *)
Fixpoint uint_units (u : Decimal.uint) : jsstr :=
  match u with
  | Decimal.Nil => []
  | Decimal.D0 r => 48%N :: uint_units r
  | Decimal.D1 r => 49%N :: uint_units r
  | Decimal.D2 r => 50%N :: uint_units r
  | Decimal.D3 r => 51%N :: uint_units r
  | Decimal.D4 r => 52%N :: uint_units r
  | Decimal.D5 r => 53%N :: uint_units r
  | Decimal.D6 r => 54%N :: uint_units r
  | Decimal.D7 r => 55%N :: uint_units r
  | Decimal.D8 r => 56%N :: uint_units r
  | Decimal.D9 r => 57%N :: uint_units r
  end.

Definition N_to_string (n : N) : jsstr := uint_units (N.to_uint n).

Definition is_digit (c : N) : bool := ((48 <=? c) && (c <=? 57))%N.

(* ================================================================== *)
(** ** JavaScript numbers *)

Inductive num : Type :=
| Fin (q : Q)
| PInf
| NInf
| NaN.

Definition qltb (a b : Q) : bool :=
  match Qcompare a b with Lt => true | _ => false end.

Definition qsign (a : Q) : comparison := Qcompare a 0.

Definition num_of_nat (n : nat) : num := Fin (inject_Z (Z.of_nat n)).

Definition num_neg (x : num) : num :=
  match x with
  | Fin a => Fin (- a) | PInf => NInf | NInf => PInf | NaN => NaN
  end.

Definition num_add (x y : num) : num :=
  match x, y with
  | NaN, _ | _, NaN => NaN
  | PInf, NInf | NInf, PInf => NaN
  | PInf, _ | _, PInf => PInf
  | NInf, _ | _, NInf => NInf
  | Fin a, Fin b => Fin (a + b)
  end.

Definition num_sub (x y : num) : num := num_add x (num_neg y).

(** Infinity times a finite value of the given sign. *)
Definition inf_scale (pos : bool) (b : Q) : num :=
  match qsign b with
  | Eq => NaN
  | Gt => if pos then PInf else NInf
  | Lt => if pos then NInf else PInf
  end.

Definition num_mul (x y : num) : num :=
  match x, y with
  | NaN, _ | _, NaN => NaN
  | Fin a, Fin b => Fin (a * b)
  | PInf, Fin b | Fin b, PInf => inf_scale true b
  | NInf, Fin b | Fin b, NInf => inf_scale false b
  | PInf, PInf | NInf, NInf => PInf
  | PInf, NInf | NInf, PInf => NInf
  end.

Definition num_div (x y : num) : num :=
  match x, y with
  | NaN, _ | _, NaN => NaN
  | Fin a, Fin b =>
      match qsign b with
      | Eq => match qsign a with Eq => NaN | Gt => PInf | Lt => NInf end
      | _ => Fin (a / b)
      end
  | Fin _, _ => Fin 0
  | PInf, Fin b => match qsign b with Lt => NInf | _ => PInf end
  | NInf, Fin b => match qsign b with Lt => PInf | _ => NInf end
  | _, _ => NaN
  end.

(** The relational operators [<] and [>]: false as soon as NaN occurs. *)
Definition num_lt (x y : num) : bool :=
  match x, y with
  | NaN, _ | _, NaN => false
  | Fin a, Fin b => qltb a b
  | NInf, NInf => false
  | NInf, _ => true
  | PInf, _ => false
  | Fin _, PInf => true
  | Fin _, NInf => false
  end.

Definition num_gt (x y : num) : bool := num_lt y x.

(** [<=]. *)
Definition num_le (x y : num) : bool :=
  match x, y with
  | NaN, _ | _, NaN => false
  | Fin a, Fin b => Qle_bool a b
  | NInf, _ => true
  | _, PInf => true
  | _, _ => false
  end.

(** [==] on numbers. *)
Definition num_eqb (x y : num) : bool :=
  match x, y with
  | Fin a, Fin b => Qeq_bool a b
  | PInf, PInf | NInf, NInf => true
  | _, _ => false
  end.

Definition is_nan (x : num) : bool := match x with NaN => true | _ => false end.

(** [Math.min] and [Math.max] of two numbers. *)
Definition math_min (x y : num) : num :=
  if is_nan x || is_nan y then NaN else if num_lt y x then y else x.

Definition math_max (x y : num) : num :=
  if is_nan x || is_nan y then NaN else if num_lt x y then y else x.

(** [Math.pow(Fin b, n)] for a non-negative integer exponent [n]. *)
Definition math_pow (b : Q) (n : nat) : num := Fin (b ^ Z.of_nat n).

(** Truthiness of a number ([x || d]). *)
Definition num_truthy (x : num) : bool :=
  match x with
  | Fin a => negb (Qeq_bool a 0)
  | PInf | NInf => true
  | NaN => false
  end.

(** [Number.prototype.toFixed(1)].  The magnitude bound 10^21 above which
    [toFixed] falls back to [ToString] is not modelled. *)
Definition to_fixed1 (x : num) : jsstr :=
  match x with
  | NaN => js "NaN"
  | PInf => js "Infinity"
  | NInf => js "-Infinity"
  | Fin q =>
      let sgn := if qltb q 0 then js "-" else [] in
      let n := Qfloor (Qabs q * 10 + (1 # 2)) in
      let ds := N_to_string (Z.to_N n) in
      let ds := if (length ds <? 2)%nat then 48%N :: ds else ds in
      sgn ++ removelast ds ++ js "." ++ [last ds 48%N]
  end.

(** [parseFloat]: leading white space, an optional sign, then the longest
    prefix that is "Infinity" or a decimal literal; NaN when there is none. *)
Fixpoint take_digits (s : jsstr) : jsstr * jsstr :=
  match s with
  | c :: r =>
      if is_digit c then let '(d, rest) := take_digits r in (c :: d, rest)
      else ([], s)
  | [] => ([], [])
  end.

Definition digits_value (ds : jsstr) : Z :=
  fold_left (fun acc c => (acc * 10 + Z.of_N (c - 48))%Z) ds 0%Z.

Definition parse_exponent (s : jsstr) : Z :=
  match s with
  | c :: r =>
      if (c =? 101)%N || (c =? 69)%N then
        let '(sgn, r') :=
          match r with
          | 45%N :: r' => ((-1)%Z, r')
          | 43%N :: r' => (1%Z, r')
          | _ => (1%Z, r)
          end in
        let '(ed, _) := take_digits r' in
        match ed with [] => 0%Z | _ => (sgn * digits_value ed)%Z end
      else 0%Z
  | [] => 0%Z
  end.

Definition parse_unsigned (s : jsstr) : num :=
  if is_prefix (js "Infinity") s then PInf else
  let '(ip, r1) := take_digits s in
  let '(fp, r2) :=
    match r1 with
    | 46%N :: r => take_digits r
    | _ => ([], r1)
    end in
  match ip, fp with
  | [], [] => NaN
  | _, _ =>
      let e := (parse_exponent r2 - Z.of_nat (length fp))%Z in
      Fin (inject_Z (digits_value (ip ++ fp)) * Qpower (inject_Z 10) e)
  end.

Definition parseFloat (s : jsstr) : num :=
  match trim_start s with
  | 45%N :: r => num_neg (parse_unsigned r)
  | 43%N :: r => parse_unsigned r
  | t => parse_unsigned t
  end.

(** [parseFloat(undefined)] parses the string "undefined". *)
Definition parseFloat_field (f : option jsstr) : num :=
  match f with Some s => parseFloat s | None => NaN end.

(* ================================================================== *)
(** ** Plain objects and Maps *)

Definition jsobj (A : Type) := list (jsstr * A).

Fixpoint obj_get {A} (o : jsobj A) (k : jsstr) : option A :=
  match o with
  | [] => None
  | (k', v) :: r => if jsstr_eqb k k' then Some v else obj_get r k
  end.

(** [o[k] = v] (and [map.set(k, v)]): an existing key keeps its place. *)
Definition obj_set {A} (o : jsobj A) (k : jsstr) (v : A) : jsobj A :=
  if mem k (map fst o)
  then map (fun kv => if jsstr_eqb k (fst kv) then (k, v) else kv) o
  else o ++ [(k, v)].

(** Canonical array-index keys "0" .. "4294967294". *)
Definition index_value (k : jsstr) : N :=
  fold_left (fun acc c => (acc * 10 + (c - 48))%N) k 0%N.

Definition is_array_index (k : jsstr) : bool :=
  match k with
  | [] => false
  | c :: r =>
      forallb is_digit k && (negb (c =? 48)%N || match r with [] => true | _ => false end)
      && (index_value k <=? 4294967294)%N
  end.

Fixpoint insert_index (k : jsstr) (l : list jsstr) : list jsstr :=
  match l with
  | [] => [k]
  | h :: t => if (index_value k <? index_value h)%N then k :: l else h :: insert_index k t
  end.

Definition sort_index (l : list jsstr) : list jsstr := fold_right insert_index [] l.

(** The keys visited by [for (const k in o)]. *)
Definition obj_keys {A} (o : jsobj A) : list jsstr :=
  let ks := map fst o in
  sort_index (filter is_array_index ks) ++ filter (fun k => negb (is_array_index k)) ks.

Definition is_nil {A} (l : list A) : bool := match l with [] => true | _ => false end.

(* ================================================================== *)
(** ** 1. Splitter *)

Record segment := mkSegment {
  seg_id : jsstr;
  text : jsstr;
  tokens : list jsstr
}.

(** [Splitter.tokenize]: [text.split(/[\s\p{P}]+/u).filter(t => t.length > 0)]. *)
Definition tokenize (t : jsstr) : list jsstr :=
  filter (fun tok => negb (is_nil tok)) (split_runs (fun c => is_ws c || is_punct c) t).

Definition is_sentence_end (c : N) : bool := (c =? 46)%N || (c =? 33)%N || (c =? 63)%N.

Fixpoint make_segments (i : nat) (sentences : list jsstr) : list segment :=
  match sentences with
  | [] => []
  | s :: r =>
      mkSegment (js "s" ++ N_to_string (N.of_nat (S i))) (trim s) (tokenize (trim s))
        :: make_segments (S i) r
  end.

(** [Splitter.process]: [src.split(/[.!?]+/).filter(s => s.trim().length > 0)],
    then one segment per sentence. *)
Definition splitter (src : jsstr) : list segment :=
  make_segments 0 (filter (fun s => negb (is_nil (trim s))) (split_runs is_sentence_end src)).

(* ================================================================== *)
(** ** 2. DictionaryLookup *)

Record dict_entry := mkEntry {
  mos : jsstr;
  pos : jsstr;
  score : num
}.

Record dict_lookup := mkDictLookup {
  dictionary : jsobj (list dict_entry);
  loaded : bool
}.

(** [x || d] on a possibly undefined string field. *)
Definition str_or (f : option jsstr) (d : jsstr) : jsstr :=
  match f with Some ((_ :: _) as s) => s | _ => d end.

(** The record built from the fields [pos] and [score] of a line. *)
Definition make_entry (mosWord : jsstr) (pos_f score_f : option jsstr) : dict_entry :=
  let sc := parseFloat_field score_f in
  mkEntry mosWord (str_or pos_f (js "UNK")) (if num_truthy sc then sc else Fin (1 # 2)).

(** One iteration of the loop of [loadDictionary]. *)
Definition load_line (d : jsobj (list dict_entry)) (line : jsstr) : jsobj (list dict_entry) :=
  let fields := split_char 9%N line in
  match nth_error fields 0, nth_error fields 1 with
  | Some ((_ :: _) as frWord), Some ((_ :: _) as mosWord) =>
      let key := toLowerCase frWord in
      let d1 := if mem key (map fst d) then d else obj_set d key [] in
      let arr := match obj_get d1 key with Some a => a | None => [] end in
      obj_set d1 key (arr ++ [make_entry mosWord (nth_error fields 2) (nth_error fields 3)])
  | _, _ => d
  end.

(** [loadDictionary]; [None] is a file that cannot be read. *)
Definition loadDictionary (st : dict_lookup) (file : option jsstr) : dict_lookup :=
  if loaded st then st else
  match file with
  | None => mkDictLookup (dictionary st) true
  | Some data =>
      let lines := filter (fun l => negb (is_nil (trim l))) (split_char 10%N data) in
      mkDictLookup (fold_left load_line lines (dictionary st)) true
  end.

Definition unk_entry (token : jsstr) : dict_entry :=
  mkEntry (js "<UNK:" ++ token ++ js ">") (js "UNK") (Fin (1 # 10)).

(** The value stored for [token] by the inner loop of [process]. *)
Definition lookup_token (d : jsobj (list dict_entry)) (token : jsstr) : list dict_entry :=
  let candidates := match obj_get d (toLowerCase token) with Some l => l | None => [] end in
  match candidates with
  | [] => [unk_entry token]
  | _ => candidates
  end.

(** [segmentResults] for one segment. *)
Definition process_segment (d : jsobj (list dict_entry)) (toks : list jsstr)
  : jsobj (list dict_entry) :=
  fold_left (fun o t => obj_set o t (lookup_token d t)) toks [].

(** [dictionary_results] of [DictionaryLookup.process]. *)
Definition dict_process (d : jsobj (list dict_entry)) (segs : list segment)
  : jsobj (jsobj (list dict_entry)) :=
  fold_left (fun res s => obj_set res (seg_id s) (process_segment d (tokens s))) segs [].

(* ================================================================== *)
(** ** 3. CorpusRetriever *)

(** A corpus record [{fr, mos, source?}] whose fields are JSON strings. *)
Record corpus_entry := mkCorpusEntry {
  entry_fr : jsstr;
  entry_mos : jsstr;
  entry_source : option jsstr
}.

Record corpus_retriever := mkCorpusRetriever {
  corpus : list corpus_entry;
  corpus_loaded : bool
}.

(** [loadCorpus]; the file is [None] when unreadable, else its non-blank
    lines, each [None] when it is not valid JSON. *)
Definition loadCorpus (st : corpus_retriever) (file : option (list (option corpus_entry)))
  : corpus_retriever :=
  if corpus_loaded st then st else
  match file with
  | None => mkCorpusRetriever (corpus st) true
  | Some lines =>
      let keep := fold_left (fun acc l =>
                    match l with
                    | Some e =>
                        if negb (is_nil (entry_fr e)) && negb (is_nil (entry_mos e))
                        then acc ++ [e] else acc
                    | None => acc
                    end) lines [] in
      mkCorpusRetriever (corpus st ++ keep) true
  end.

(** [new Set(arr)] keeps the first occurrence of each element. *)
Definition add_key (ks : list jsstr) (k : jsstr) : list jsstr :=
  if mem k ks then ks else ks ++ [k].

Definition js_set (l : list jsstr) : list jsstr := fold_left add_key l [].

(** [calculateSimilarity]: Jaccard index of the whitespace-separated words. *)
Definition calculateSimilarity (str1 str2 : jsstr) : num :=
  let set1 := js_set (split_runs is_ws str1) in
  let set2 := js_set (split_runs is_ws str2) in
  let intersection := js_set (filter (fun x => mem x set2) set1) in
  let union := js_set (set1 ++ set2) in
  if (length union =? 0)%nat then Fin 0
  else num_div (num_of_nat (length intersection)) (num_of_nat (length union)).

Record match_rec := mkMatch {
  m_fr : jsstr;
  m_mos : jsstr;
  m_sim : num;
  m_source : jsstr
}.

(** The loop of [searchCorpus], pushing the entries above the threshold. *)
Fixpoint collect_matches (queryLower : jsstr) (c : list corpus_entry) : list match_rec :=
  match c with
  | [] => []
  | e :: r =>
      let similarity := calculateSimilarity queryLower (toLowerCase (entry_fr e)) in
      if num_gt similarity (Fin (6 # 10)) then
        mkMatch (entry_fr e) (entry_mos e) similarity (str_or (entry_source e) (js "unknown"))
          :: collect_matches queryLower r
      else collect_matches queryLower r
  end.

(** The comparator [(a, b) => b.sim - a.sim]. *)
Definition sim_cmp (a b : match_rec) : num := num_sub (m_sim b) (m_sim a).

(** [Array.prototype.sort] is stable, so with a consistent comparator its
    result is the one of a stable insertion sort: [x] goes before the first
    element it compares strictly below. *)
Fixpoint sort_insert (x : match_rec) (l : list match_rec) : list match_rec :=
  match l with
  | [] => [x]
  | y :: r => if num_lt (sim_cmp x y) (Fin 0) then x :: l else y :: sort_insert x r
  end.

Definition sort_matches (l : list match_rec) : list match_rec :=
  fold_left (fun acc x => sort_insert x acc) l [].

(** [searchCorpus]: [matches.sort(...).slice(0, 5)]. *)
Definition searchCorpus (c : list corpus_entry) (query : jsstr) : list match_rec :=
  firstn 5 (sort_matches (collect_matches (toLowerCase query) c)).

(* ================================================================== *)
(** ** 4. Referee *)

Inductive origin := Corpus | Dictionary | NoSource.

Record composition := mkComposition {
  comp_mos : jsstr;
  comp_confidence : num;
  word_count : nat
}.

Inductive details := DMatch (m : match_rec) | DComp (c : composition) | DNone.

Record candidate := mkCandidate {
  c_mos : jsstr;
  c_source : origin;
  c_confidence : num;
  c_details : details
}.

Record decision := mkDecision {
  d_seg_id : jsstr;
  src_text : jsstr;
  final : jsstr;
  candidates : list candidate;
  explanation : jsstr
}.

(** The loop of [composeDictionaryTranslation] over the keys of [dictResult]:
    the state is [(mosWords, totalScore, wordCount)]. *)
Fixpoint compose_loop (o : jsobj (list dict_entry)) (ks : list jsstr)
  (acc : list jsstr * num * nat) : list jsstr * num * nat :=
  match ks with
  | [] => acc
  | k :: ks' =>
      let '(ws, total, wc) := acc in
      match obj_get o k with
      | Some (best :: _) => compose_loop o ks' (ws ++ [mos best], num_add total (score best), S wc)
      | _ => compose_loop o ks' acc
      end
  end.

Definition composeDictionaryTranslation (o : jsobj (list dict_entry)) : composition :=
  let '(ws, total, wc) := compose_loop o (obj_keys o) ([], Fin 0, 0%nat) in
  mkComposition (join (js " ") ws)
    (if (0 <? wc)%nat then num_div total (num_of_nat wc) else Fin 0) wc.

(** [(best, current) => current.confidence > best.confidence ? current : best] *)
Definition pick (best current : candidate) : candidate :=
  if num_gt (c_confidence current) (c_confidence best) then current else best.

Definition sentinel (seg : segment) : candidate :=
  mkCandidate (js "<UNTRANSLATED:" ++ text seg ++ js ">") NoSource (Fin 0) DNone.

Definition generateExplanation (best : candidate) (cands : list candidate) : jsstr :=
  match cands with
  | [] => js "No translation candidates found"
  | _ =>
      match c_source best with
      | Corpus => js "Corpus match selected with " ++ to_fixed1 (num_mul (c_confidence best) (Fin 100))
                  ++ js "% similarity"
      | Dictionary => js "Dictionary composition with "
                  ++ to_fixed1 (num_mul (c_confidence best) (Fin 100)) ++ js "% average word confidence"
      | NoSource => js "Fallback translation used"
      end
  end.

Definition corpus_candidates (matches : list match_rec) : list candidate :=
  map (fun m => mkCandidate (m_mos m) Corpus (m_sim m) (DMatch m)) matches.

Definition dict_candidates (dictResult : option (jsobj (list dict_entry))) : list candidate :=
  match dictResult with
  | Some dr =>
      let dc := composeDictionaryTranslation dr in
      if is_nil (trim (comp_mos dc)) then []
      else [mkCandidate (comp_mos dc) Dictionary (comp_confidence dc) (DComp dc)]
  | None => []
  end.

Definition select_best (seg : segment) (cands : list candidate) : candidate :=
  match cands with
  | [] => sentinel seg
  | c0 :: r => fold_left pick r c0
  end.

Definition makeDecision (seg : segment) (dictResult : option (jsobj (list dict_entry)))
  (matches : list match_rec) : decision :=
  let cands := corpus_candidates matches ++ dict_candidates dictResult in
  let best := select_best seg cands in
  mkDecision (seg_id seg) (text seg) (c_mos best) cands (generateExplanation best cands).

Fixpoint referee_process (segs : list segment) (dres : jsobj (jsobj (list dict_entry)))
  (cres : list (list match_rec)) : list decision :=
  match segs, cres with
  | s :: segs', m :: cres' => makeDecision s (obj_get dres (seg_id s)) m :: referee_process segs' dres cres'
  | _, _ => []
  end.

(* ================================================================== *)
(** ** 5. Scorer *)

Record features := mkFeatures {
  source_confidence : num;
  candidate_count : nat;
  length_ratio : num;
  unknown_words : nat
}.

Record scored := mkScored {
  s_decision : decision;
  composite_confidence : num;
  quality_features : features
}.

Definition extract_features (r : decision) : features :=
  let sc := match candidates r with c :: _ => c_confidence c | [] => Fin 0 end in
  let srcLength := length (src_text r) in
  let tgtLength := length (final r) in
  let lr := if (0 <? srcLength)%nat
            then math_min (num_div (num_of_nat tgtLength) (num_of_nat srcLength))
                          (num_div (num_of_nat srcLength) (num_of_nat tgtLength))
            else Fin 0 in
  mkFeatures sc (length (candidates r)) lr (count_matches (js "<UNK:") (final r)).

(** The confidence computation of [calculateCompositeScore]. *)
Definition composite_of (f : features) : num :=
  let c1 := if (0 <? unknown_words f)%nat
            then num_mul (source_confidence f) (math_pow (7 # 10) (unknown_words f))
            else source_confidence f in
  let c2 := if num_lt (length_ratio f) (Fin (3 # 10)) then num_mul c1 (Fin (8 # 10)) else c1 in
  let c3 := if (1 <? candidate_count f)%nat then math_min (Fin 1) (num_mul c2 (Fin (11 # 10)))
            else c2 in
  math_max (Fin 0) (math_min (Fin 1) c3).

Definition calculateCompositeScore (r : decision) : scored :=
  let f := extract_features r in
  mkScored r (composite_of f) f.

(* ================================================================== *)
(** ** Pipeline *)

Definition translate_sentence (dict_file : option jsstr)
  (corpus_file : option (list (option corpus_entry))) (src : jsstr) : list scored :=
  let segs := splitter src in
  let dl := loadDictionary (mkDictLookup [] false) dict_file in
  let dres := dict_process (dictionary dl) segs in
  let cr := loadCorpus (mkCorpusRetriever [] false) corpus_file in
  let cres := map (fun s => searchCorpus (corpus cr) (text s)) segs in
  map calculateCompositeScore (referee_process segs dres cres).

(** A key's array after more records were pushed to it: absent when it was
    absent and nothing was pushed. *)
Definition opt_app {A} (o : option (list A)) (l : list A) : option (list A) :=
  match o, l with
  | None, [] => None
  | None, _ => Some l
  | Some a, _ => Some (a ++ l)
  end.

(** The records one line of the dictionary file pushes under [key]. *)
Definition line_records (key : jsstr) (line : jsstr) : list dict_entry :=
  match obj_get (load_line [] line) key with Some l => l | None => [] end.

(* ================================================================== *)
(** ** DictionaryLookup.calculateCoverage *)

(** [results[segId][token][0].score > 0.1]; [None] when [results[segId][token]]
    is missing or empty, where reading [[0].score] throws a TypeError. *)
Definition first_score_above (arr : option (list dict_entry)) : option bool :=
  match arr with
  | Some (e :: _) => Some (num_gt (score e) (Fin (1 # 10)))
  | _ => None
  end.

(** The inner loop [for (const token in results[segId])] on [(total, covered)]. *)
Fixpoint count_tokens (sr : jsobj (list dict_entry)) (ks : list jsstr) (acc : nat * nat)
  : option (nat * nat) :=
  match ks with
  | [] => Some acc
  | k :: r =>
      match first_score_above (obj_get sr k) with
      | None => None
      | Some b =>
          let '(total, covered) := acc in
          count_tokens sr r (S total, if b then S covered else covered)
      end
  end.

(** The outer loop [for (const segId in results)]. *)
Fixpoint count_segments (results : jsobj (jsobj (list dict_entry))) (ids : list jsstr)
  (acc : nat * nat) : option (nat * nat) :=
  match ids with
  | [] => Some acc
  | i :: r =>
      match obj_get results i with
      | Some sr =>
          match count_tokens sr (obj_keys sr) acc with
          | Some acc' => count_segments results r acc'
          | None => None
          end
      | None => None
      end
  end.

(** [calculateCoverage(results)]: [total > 0 ? covered / total : 0]; [None]
    when the loop throws. *)
Definition calculateCoverage (results : jsobj (jsobj (list dict_entry))) : option num :=
  match count_segments results (obj_keys results) (0%nat, 0%nat) with
  | Some (total, covered) =>
      Some (if (0 <? total)%nat then num_div (num_of_nat covered) (num_of_nat total) else Fin 0)
  | None => None
  end.

(* ================================================================== *)
(** ** Logger.determineStatus *)

(** [>=] on numbers. *)
Definition num_ge (x y : num) : bool := num_le y x.

Definition determineStatus (confidence : num) : jsstr :=
  if num_ge confidence (Fin (8 # 10)) then js "auto_accepted"
  else if num_ge confidence (Fin (1 # 2)) then js "review_recommended"
  else js "manual_review_required".

(* ================================================================== *)
(** ** Values returned by AfropairPipeline.translateSentence *)

(** [avgConfidence]: [scored_results.reduce((sum, r) => sum + r.composite_confidence, 0)
    / scored_results.length]. *)
Definition average_confidence (rs : list scored) : num :=
  num_div (fold_left (fun sum r => num_add sum (composite_confidence r)) rs (Fin 0))
          (num_of_nat (length rs)).

(** [translation: logResult.records[0]?.tgt || ''], where the Logger's
    record [i] has [tgt = scored_results[i].final]. *)
Definition first_translation (rs : list scored) : jsstr :=
  match rs with
  | r :: _ => str_or (Some (final (s_decision r))) []
  | [] => []
  end.

(* ================================================================== *)
(** ** Concrete inputs *)

(** A tab-separated dictionary record and a file of records. *)
Definition tsv (fields : list jsstr) : jsstr := join [9%N] fields.

Definition file_lines (ls : list jsstr) : jsstr := join [10%N] ls.

Definition load_dict_file (f : option jsstr) : jsobj (list dict_entry) :=
  dictionary (loadDictionary (mkDictLookup [] false) f).

(** A dictionary with one entry, for a segment mixing a known and an unknown token. *)
Definition bonjour_file : option jsstr :=
  Some (tsv [js "bonjour"; js "ne y yibeogo"; js "interj"; js "0.9"]).

(** A record whose score field is the explicit, parsable "0". *)
Definition zero_score_file : option jsstr :=
  Some (tsv [js "eau"; js "koom"; js "noun"; js "0"]).

(** Four words known with score 0.95, and a corpus sentence sharing four of
    its five words with "a b c d". *)
Definition abcd_file : option jsstr :=
  Some (file_lines [tsv [js "a"; js "A"; js "n"; js "0.95"]; tsv [js "b"; js "B"; js "n"; js "0.95"];
                    tsv [js "c"; js "C"; js "n"; js "0.95"]; tsv [js "d"; js "D"; js "n"; js "0.95"]]).

Definition abcde_corpus : option (list (option corpus_entry)) :=
  Some [Some (mkCorpusEntry (js "a b c d e") (js "X") None)].

(** Two words whose scores parse to +Infinity and -Infinity. *)
Definition infinite_scores_file : option jsstr :=
  Some (file_lines [tsv [js "x"; js "y"; js "n"; js "Infinity"];
                    tsv [js "z"; js "w"; js "n"; js "-Infinity"]]).

(** The sentence "Je vais au marche." with e acute (U+00E9), its target
    "N z<U+0269><U+0300> n<U+00E0> zaab<U+0101>." and the corpus holding the
    pair, with provenance manual_v1, in the fields [fr], [mos], [source] read
    by [searchCorpus]. *)
Definition marche_src : jsstr := js "Je vais au march" ++ [233%N] ++ js ".".

Definition marche_target : jsstr :=
  js "N z" ++ [617%N; 768%N] ++ js " n" ++ [224%N] ++ js " zaab" ++ [257%N] ++ js ".".

Definition marche_corpus : option (list (option corpus_entry)) :=
  Some [Some (mkCorpusEntry marche_src marche_target (Some (js "manual_v1")))].

(** The dictionary je -> <U+00E0>n<U+025B> (0.95), aller -> z<U+0269><U+0300> (0.98). *)
Definition marche_dict_file : option jsstr :=
  Some (file_lines [tsv [js "je"; [224%N; 110%N; 603%N]; js "pron"; js "0.95"];
                    tsv [js "aller"; [122%N; 617%N; 768%N]; js "verb"; js "0.98"]]).

(** A segment whose text is the whole sentence, final "." included, as in
    the Splitter's documented example output. *)
Definition marche_full_segment : segment :=
  mkSegment (js "s1") marche_src (tokenize marche_src).


Definition no_decision : decision := mkDecision [] [] [] [] [].
Definition no_scored : scored := mkScored no_decision (Fin 0) (mkFeatures (Fin 0) 0 (Fin 0) 0).
Definition no_candidate : candidate := mkCandidate [] NoSource (Fin 0) DNone.

(** The first entry stored under key [k] (the [candidates[0]] read by
    [composeDictionaryTranslation]). *)
Definition first_entry (o : jsobj (list dict_entry)) (k : jsstr) : dict_entry :=
  match obj_get o k with Some (e :: _) => e | _ => unk_entry k end.

Definition token_dec := list_eq_dec N.eq_dec.

(** The similarity of a match as a rational (0 for a non-finite value). *)
Definition simq (m : match_rec) : Q := match m_sim m with Fin r => r | _ => 0 end.

(** Matches whose similarity is a finite number, ordered by similarity. *)
Definition fin_sim (m : match_rec) : Prop := exists r, m_sim m = Fin r.

Definition Rq (a b : match_rec) : Prop := simq b <= simq a.

(** [m.sim == q]. *)
Definition same_sim (q : Q) (m : match_rec) : bool := num_eqb (m_sim m) (Fin q).

(** [w] is the result of [reduce] with [pick] over [l]: every candidate
    before it has a smaller confidence, none after it a greater one. *)
Definition first_max (l : list candidate) (w : candidate) : Prop :=
  exists pre post, l = pre ++ w :: post /\
    Forall (fun c => num_lt (c_confidence c) (c_confidence w) = true) pre /\
    Forall (fun c => num_gt (c_confidence c) (c_confidence w) = false) post.

Definition not_nan (c : candidate) : Prop := is_nan (c_confidence c) = false.

(* ================================================================== *)
(** * Properties *)

(** ** Strings, objects and sets *)

Lemma jsstr_eqb_eq : forall a b, jsstr_eqb a b = true <-> a = b.
Proof.
  intros a b. unfold jsstr_eqb.
  destruct (list_eq_dec N.eq_dec a b); split; congruence.
Qed.

Lemma mem_In : forall x l, mem x l = true <-> In x l.
Proof.
  intros x l. unfold mem. rewrite existsb_exists. split.
  - intros [y [Hy Heq]]. apply jsstr_eqb_eq in Heq. subst. exact Hy.
  - intros H. exists x. split; [exact H | apply jsstr_eqb_eq; reflexivity].
Qed.

Lemma jsstr_eqb_refl : forall a, jsstr_eqb a a = true.
Proof. intros a. apply jsstr_eqb_eq. reflexivity. Qed.

Lemma jsstr_eqb_neq : forall a b, jsstr_eqb a b = false <-> a <> b.
Proof.
  intros a b. rewrite <- jsstr_eqb_eq. destruct (jsstr_eqb a b); split; congruence.
Qed.

Ltac jseq a b :=
  let E := fresh "E" in
  let N := fresh "N" in
  destruct (jsstr_eqb a b) eqn:E;
  [apply jsstr_eqb_eq in E; subst | pose proof (proj1 (jsstr_eqb_neq _ _) E) as N].

Lemma mem_false : forall x l, mem x l = false <-> ~ In x l.
Proof.
  intros x l. rewrite <- mem_In. destruct (mem x l); split; congruence.
Qed.

Lemma obj_get_app_new {A} : forall (o : jsobj A) k v,
  ~ In k (map fst o) -> obj_get (o ++ [(k, v)]) k = Some v.
Proof.
  induction o as [|[k' v'] r IH]; intros k v Hn; simpl.
  - rewrite jsstr_eqb_refl. reflexivity.
  - simpl in Hn. jseq k k'; [tauto|]. apply IH. tauto.
Qed.

Lemma obj_get_app_other {A} : forall (o : jsobj A) k v k',
  k' <> k -> obj_get (o ++ [(k, v)]) k' = obj_get o k'.
Proof.
  induction o as [|[k0 v0] r IH]; intros k v k' Hne; simpl.
  - apply jsstr_eqb_neq in Hne. rewrite Hne. reflexivity.
  - destruct (jsstr_eqb k' k0); [reflexivity|]. apply IH. exact Hne.
Qed.

Lemma obj_get_map_same {A} : forall (o : jsobj A) k v,
  In k (map fst o) ->
  obj_get (map (fun kv => if jsstr_eqb k (fst kv) then (k, v) else kv) o) k = Some v.
Proof.
  induction o as [|[k0 v0] r IH]; intros k v Hin; simpl in *; [contradiction|].
  jseq k k0; simpl.
  - rewrite jsstr_eqb_refl. reflexivity.
  - rewrite E. apply IH. destruct Hin; [congruence | assumption].
Qed.

Lemma obj_get_map_other {A} : forall (o : jsobj A) k v k',
  k' <> k ->
  obj_get (map (fun kv => if jsstr_eqb k (fst kv) then (k, v) else kv) o) k' = obj_get o k'.
Proof.
  induction o as [|[k0 v0] r IH]; intros k v k' Hne; simpl; [reflexivity|].
  jseq k k0; simpl.
  - rewrite (proj2 (jsstr_eqb_neq _ _) Hne). apply IH. congruence.
  - destruct (jsstr_eqb k' k0); [reflexivity|]. apply IH. exact Hne.
Qed.

Lemma obj_get_set_same {A} : forall (o : jsobj A) k v, obj_get (obj_set o k v) k = Some v.
Proof.
  intros o k v. unfold obj_set. destruct (mem k (map fst o)) eqn:M.
  - apply obj_get_map_same. apply mem_In. exact M.
  - apply obj_get_app_new. apply mem_false. exact M.
Qed.

Lemma obj_get_set_other {A} : forall (o : jsobj A) k v k',
  k' <> k -> obj_get (obj_set o k v) k' = obj_get o k'.
Proof.
  intros o k v k' Hne. unfold obj_set. destruct (mem k (map fst o)).
  - apply obj_get_map_other. exact Hne.
  - apply obj_get_app_other. exact Hne.
Qed.

(** Reading a key after a loop that assigns [o[t] = f(t)] for each [t]. *)
Lemma obj_get_fold_set {A} : forall (f : jsstr -> A) l (o : jsobj A) k,
  obj_get (fold_left (fun o t => obj_set o t (f t)) l o) k =
  if mem k l then Some (f k) else obj_get o k.
Proof.
  intros f. induction l as [|t r IH]; intros o k; simpl; [reflexivity|].
  rewrite IH. unfold mem at 1. simpl. fold (mem k r).
  jseq k t.
  - destruct (mem t r); [reflexivity|]. apply obj_get_set_same.
  - simpl. destruct (mem k r); [reflexivity|]. apply obj_get_set_other. exact N.
Qed.

(** The keys of [obj_set]: an existing key keeps its place, a new one is appended. *)
Lemma keys_obj_set {A} : forall (o : jsobj A) k v,
  map fst (obj_set o k v) = add_key (map fst o) k.
Proof.
  intros o k v. unfold obj_set, add_key. destruct (mem k (map fst o)) eqn:M.
  - rewrite map_map. apply map_ext_in. intros [k0 v0] Hin. simpl.
    jseq k k0; reflexivity.
  - rewrite map_app. reflexivity.
Qed.

Lemma keys_fold_set {A} : forall (f : jsstr -> A) l (o : jsobj A),
  map fst (fold_left (fun o t => obj_set o t (f t)) l o) = fold_left add_key l (map fst o).
Proof.
  intros f. induction l as [|t r IH]; intros o; simpl; [reflexivity|].
  rewrite IH, keys_obj_set. reflexivity.
Qed.

Lemma In_fold_add_key : forall l acc x,
  In x (fold_left add_key l acc) <-> In x acc \/ In x l.
Proof.
  induction l as [|y r IH]; intros acc x; simpl.
  - tauto.
  - rewrite IH. unfold add_key. destruct (mem y acc) eqn:M.
    + apply mem_In in M. split; [tauto|]. intros [H|[H|H]]; subst; tauto.
    + rewrite in_app_iff. simpl. tauto.
Qed.

Lemma NoDup_fold_add_key : forall l acc, NoDup acc -> NoDup (fold_left add_key l acc).
Proof.
  induction l as [|y r IH]; intros acc Hnd; simpl; [exact Hnd|].
  apply IH. unfold add_key. destruct (mem y acc) eqn:M; [exact Hnd|].
  apply mem_false in M. apply NoDup_app; [exact Hnd | constructor; [simpl; tauto | constructor] |].
  intros x Hx Hy. simpl in Hy. destruct Hy as [Hy|[]]. subst. contradiction.
Qed.

Lemma NoDup_same_length : forall (l1 l2 : list jsstr),
  NoDup l1 -> NoDup l2 -> (forall x, In x l1 <-> In x l2) -> length l1 = length l2.
Proof.
  intros l1 l2 H1 H2 H. apply Permutation_length. apply NoDup_Permutation; assumption.
Qed.

Lemma js_set_In : forall l x, In x (js_set l) <-> In x l.
Proof. intros l x. unfold js_set. rewrite In_fold_add_key. simpl. tauto. Qed.

Lemma js_set_NoDup : forall l, NoDup (js_set l).
Proof. intros l. apply NoDup_fold_add_key. constructor. Qed.

Lemma split_runs_aux_nonempty : forall p s cur b, split_runs_aux p s cur b <> [].
Proof.
  intros p. induction s as [|c r IH]; intros cur b; simpl; [discriminate|].
  destruct (p c); [destruct b; [apply IH | discriminate] | apply IH].
Qed.

Lemma num_div_nat_self : forall n, (0 < n)%nat ->
  num_eqb (num_div (num_of_nat n) (num_of_nat n)) (Fin 1) = true.
Proof.
  intros [|n] H; [lia|].
  unfold num_div, num_of_nat, qsign.
  replace (inject_Z (Z.of_nat (S n)) ?= 0) with Gt by reflexivity.
  simpl. apply Qeq_eq_bool. unfold Qdiv. apply Qmult_inv_r.
  unfold Qeq. simpl. lia.
Qed.

(** C9: the Jaccard similarity of [calculateSimilarity] is symmetric, and a
    string has similarity 1.0 with itself ([==] on numbers); this holds for
    every string, in particular every non-empty one. *)
Theorem calculateSimilarity_symmetric_reflexive :
  (forall a b, calculateSimilarity a b = calculateSimilarity b a) /\
  (forall a, num_eqb (calculateSimilarity a a) (Fin 1) = true).
Proof.
  split.
  - intros a b. unfold calculateSimilarity. cbv zeta.
    set (s1 := js_set (split_runs is_ws a)).
    set (s2 := js_set (split_runs is_ws b)).
    assert (HU : length (js_set (s1 ++ s2)) = length (js_set (s2 ++ s1))).
    { apply NoDup_same_length; try apply js_set_NoDup.
      intros x. rewrite !js_set_In, !in_app_iff. tauto. }
    assert (HI : length (js_set (filter (fun x => mem x s2) s1))
                 = length (js_set (filter (fun x => mem x s1) s2))).
    { apply NoDup_same_length; try apply js_set_NoDup.
      intros x. rewrite !js_set_In, !filter_In, !mem_In. tauto. }
    rewrite HU, HI. reflexivity.
  - intros a. unfold calculateSimilarity. cbv zeta.
    set (s := js_set (split_runs is_ws a)).
    assert (HU : length (js_set (filter (fun x => mem x s) s)) = length (js_set (s ++ s))).
    { apply NoDup_same_length; try apply js_set_NoDup.
      intros x. rewrite !js_set_In, filter_In, in_app_iff, mem_In. tauto. }
    assert (Hpos : (0 < length (js_set (s ++ s)))%nat).
    { destruct (split_runs is_ws a) as [|y r] eqn:Hs.
      - exfalso. unfold split_runs in Hs. eapply split_runs_aux_nonempty. exact Hs.
      - assert (Hy : In y (js_set (s ++ s))).
        { rewrite js_set_In, in_app_iff. left. unfold s. rewrite js_set_In. left. reflexivity. }
        destruct (js_set (s ++ s)); [contradiction | simpl; lia]. }
    rewrite HU. destruct (length (js_set (s ++ s)) =? 0)%nat eqn:Z0.
    + apply Nat.eqb_eq in Z0. lia.
    + apply num_div_nat_self. exact Hpos.
Qed.

(** ** Lexicon *)

(** C7: for a token whose case-folded form is absent from the dictionary,
    the inner loop of [DictionaryLookup.process] stores under that token a
    one-element array: the entry with target "<UNK:token>" (the token text
    verbatim inside the placeholder), part of speech "UNK" and score 0.1. *)
Theorem unknown_token_single_placeholder :
  forall (d : jsobj (list dict_entry)) (toks : list jsstr) (t : jsstr),
    In t toks -> obj_get d (toLowerCase t) = None ->
    obj_get (process_segment d toks) t = Some [unk_entry t] /\
    mos (unk_entry t) = js "<UNK:" ++ t ++ js ">" /\
    pos (unk_entry t) = js "UNK" /\
    score (unk_entry t) = Fin (1 # 10).
Proof.
  intros d toks t Hin Hnone. unfold process_segment. rewrite obj_get_fold_set.
  rewrite (proj2 (mem_In _ _) Hin). unfold lookup_token. rewrite Hnone.
  repeat split.
Qed.

Lemma unknown_token_single_placeholder_witness :
  (In (js "Xyz") [js "Bonjour"; js "Xyz"] /\
   obj_get (load_dict_file bonjour_file) (toLowerCase (js "Xyz")) = None) /\
  obj_get (process_segment (load_dict_file bonjour_file) [js "Bonjour"; js "Xyz"]) (js "Xyz")
    = Some [unk_entry (js "Xyz")].
Proof.
  split.
  - split; [simpl; auto | vm_compute; reflexivity].
  - apply (unknown_token_single_placeholder (load_dict_file bonjour_file)
             [js "Bonjour"; js "Xyz"] (js "Xyz")); [simpl; auto | vm_compute; reflexivity].
Defined.

(** C8 (evaluation at the failing input): the record "eau<TAB>koom<TAB>noun<TAB>0"
    has the parsable score "0", yet [parseFloat(score) || 0.5] stores 0.5,
    because 0 is falsy. *)
Theorem loadDictionary_zero_score_stored_as_default :
  num_eqb (parseFloat (js "0")) (Fin 0) = true /\
  load_dict_file zero_score_file = [(js "eau", [mkEntry (js "koom") (js "noun") (Fin (1 # 2))])].
Proof. split; vm_compute; reflexivity. Qed.

(** ** Scorer *)

(** C1 (evaluation at the failing input): for "a b c d." with the dictionary
    a, b, c, d (score 0.95 each) and the corpus sentence "a b c d e", the
    candidates are the corpus match (similarity 4/5) then the dictionary
    composition "A B C D" (confidence 0.95).  The Referee picks the dictionary
    composition, but [sourceConfidence] is the first candidate's 0.8. *)
Theorem source_confidence_of_first_candidate :
  let r := hd no_scored (translate_sentence abcd_file abcde_corpus (js "a b c d.")) in
  let cs := candidates (s_decision r) in
  length (translate_sentence abcd_file abcde_corpus (js "a b c d.")) = 1%nat /\
  map c_source cs = [Corpus; Dictionary] /\
  map c_mos cs = [js "X"; js "A B C D"] /\
  final (s_decision r) = js "A B C D" /\
  num_eqb (c_confidence (nth 0 cs no_candidate)) (Fin (4 # 5)) = true /\
  num_eqb (c_confidence (nth 1 cs no_candidate)) (Fin (95 # 100)) = true /\
  num_eqb (source_confidence (quality_features r)) (Fin (4 # 5)) = true.
Proof. vm_compute. repeat split. Qed.

Lemma qltb_iff : forall a b, qltb a b = true <-> a < b.
Proof.
  intros a b. unfold qltb. rewrite Qlt_alt. destruct (a ?= b); split; congruence.
Qed.

Lemma qltb_false : forall a b, qltb a b = false <-> b <= a.
Proof.
  intros a b. split.
  - intros H. apply Qnot_lt_le. intros Hlt. apply qltb_iff in Hlt. congruence.
  - intros H. destruct (qltb a b) eqn:E; [|reflexivity].
    apply qltb_iff in E. exfalso. apply (Qlt_not_le a b); assumption.
Qed.

(** The final clamp of [calculateCompositeScore] lands in [0,1] for every
    value except NaN. *)
Lemma clamp_unit_interval : forall x, is_nan x = false ->
  exists q, math_max (Fin 0) (math_min (Fin 1) x) = Fin q /\ 0 <= q /\ q <= 1.
Proof.
  intros [q| | |] Hn; try discriminate.
  - unfold math_min, math_max. simpl.
    destruct (qltb q 1) eqn:H1; simpl.
    + apply qltb_iff in H1. destruct (qltb 0 q) eqn:H0.
      * apply qltb_iff in H0. exists q. split; [reflexivity|].
        split; apply Qlt_le_weak; assumption.
      * exists 0. split; [reflexivity|]. split; [apply Qle_refl | discriminate].
    + exists 1. split; [reflexivity|]. split; discriminate.
  - exists 1. split; [reflexivity|]. split; discriminate.
  - exists 0. split; [reflexivity|]. split; [apply Qle_refl | discriminate].
Qed.

(** C6 (evaluation at the failing input): with the scores "Infinity" and
    "-Infinity" for the two words of "x z.", the dictionary confidence is
    (Infinity + -Infinity) / 2 = NaN; [sourceConfidence] is NaN and the
    composite confidence is NaN, which the clamp
    [Math.max(0, Math.min(1, c))] lets through. *)
Theorem composite_confidence_nan_escapes_clamp :
  map (fun r => source_confidence (quality_features r))
      (translate_sentence infinite_scores_file None (js "x z.")) = [NaN] /\
  map composite_confidence (translate_sentence infinite_scores_file None (js "x z.")) = [NaN].
Proof. split; vm_compute; reflexivity. Qed.

(** ** Keys of objects and composition *)

Lemma insert_index_perm : forall k l, Permutation (insert_index k l) (k :: l).
Proof.
  intros k. induction l as [|h t IH]; simpl; [reflexivity|].
  destruct (index_value k <? index_value h)%N; [reflexivity|].
  rewrite IH. apply perm_swap.
Qed.

Lemma sort_index_perm : forall l, Permutation (sort_index l) l.
Proof.
  induction l as [|x r IH]; simpl; [reflexivity|].
  rewrite insert_index_perm. apply perm_skip. exact IH.
Qed.

Lemma filter_split_perm : forall (p : jsstr -> bool) l,
  Permutation (filter p l ++ filter (fun k => negb (p k)) l) l.
Proof.
  intros p. induction l as [|x r IH]; simpl; [reflexivity|].
  destruct (p x); simpl.
  - apply perm_skip. exact IH.
  - rewrite <- Permutation_middle. apply perm_skip. exact IH.
Qed.

Lemma obj_keys_perm {A} : forall (o : jsobj A), Permutation (obj_keys o) (map fst o).
Proof.
  intros o. unfold obj_keys.
  rewrite sort_index_perm. apply filter_split_perm.
Qed.

Lemma keys_process_segment : forall d toks,
  map fst (process_segment d toks) = fold_left add_key toks [].
Proof. intros d toks. unfold process_segment. rewrite keys_fold_set. reflexivity. Qed.

Lemma In_obj_keys_process : forall d toks k,
  In k (obj_keys (process_segment d toks)) <-> In k toks.
Proof.
  intros d toks k. split; intros H.
  - apply (Permutation_in _ (obj_keys_perm _)) in H.
    rewrite keys_process_segment, In_fold_add_key in H. simpl in H. tauto.
  - apply (Permutation_in _ (Permutation_sym (obj_keys_perm _))).
    rewrite keys_process_segment, In_fold_add_key. tauto.
Qed.

Lemma NoDup_keys_process : forall d toks, NoDup (map fst (process_segment d toks)).
Proof. intros d toks. rewrite keys_process_segment. apply NoDup_fold_add_key. constructor. Qed.

Lemma add_key_length : forall acc k, (length (add_key acc k) <= S (length acc))%nat.
Proof.
  intros acc k. unfold add_key. destruct (mem k acc); [lia|].
  rewrite length_app. simpl. lia.
Qed.

Lemma add_key_keeps : forall acc k x, In x acc -> In x (add_key acc k).
Proof.
  intros acc k x H. unfold add_key. destruct (mem k acc); [exact H|].
  apply in_or_app. left. exact H.
Qed.

Lemma fold_add_key_length : forall l acc,
  (length (fold_left add_key l acc) <= length acc + length l)%nat.
Proof.
  induction l as [|x r IH]; intros acc; simpl; [lia|].
  specialize (IH (add_key acc x)). pose proof (add_key_length acc x). lia.
Qed.

Lemma fold_add_key_hit : forall l acc t, In t acc -> In t l ->
  (length (fold_left add_key l acc) < length acc + length l)%nat.
Proof.
  induction l as [|x r IH]; intros acc t Hacc Hl; simpl in *; [contradiction|].
  destruct (token_dec x t) as [->|Hne].
  - unfold add_key at 2. rewrite (proj2 (mem_In _ _) Hacc).
    pose proof (fold_add_key_length r acc). lia.
  - destruct Hl as [Hl|Hl]; [congruence|].
    specialize (IH (add_key acc x) t (add_key_keeps _ _ _ Hacc) Hl).
    pose proof (add_key_length acc x). unfold jsstr in *. lia.
Qed.

Lemma fold_add_key_dup : forall l acc t, (2 <= count_occ token_dec l t)%nat ->
  (length (fold_left add_key l acc) < length acc + length l)%nat.
Proof.
  induction l as [|x r IH]; intros acc t Hc; simpl in *; [lia|].
  destruct (token_dec x t) as [->|Hne].
  - assert (Hr : In t r) by (apply (count_occ_In token_dec); lia).
    assert (Ha : In t (add_key acc t)).
    { unfold add_key. destruct (mem t acc) eqn:M; [apply mem_In; exact M|].
      apply in_or_app. right. left. reflexivity. }
    eapply Nat.lt_le_trans; [exact (fold_add_key_hit r (add_key acc t) t Ha Hr)|].
    pose proof (add_key_length acc t). unfold jsstr in *. lia.
  - eapply Nat.lt_le_trans; [exact (IH (add_key acc x) t Hc)|].
    pose proof (add_key_length acc x). unfold jsstr in *. lia.
Qed.

(** The loop of [composeDictionaryTranslation] when every visited key holds a
    non-empty array. *)
Lemma compose_loop_nonempty : forall o ks ws total wc,
  (forall k, In k ks -> exists e es, obj_get o k = Some (e :: es)) ->
  compose_loop o ks (ws, total, wc) =
  (ws ++ map (fun k => mos (first_entry o k)) ks,
   fold_left (fun acc k => num_add acc (score (first_entry o k))) ks total,
   (wc + length ks)%nat).
Proof.
  intros o. induction ks as [|k r IH]; intros ws total wc Hne; simpl.
  - rewrite app_nil_r, Nat.add_0_r. reflexivity.
  - destruct (Hne k (or_introl eq_refl)) as [e [es He]].
    rewrite He. rewrite IH by (intros k' Hk'; apply Hne; right; exact Hk').
    assert (Hf : first_entry o k = e) by (unfold first_entry; rewrite He; reflexivity).
    rewrite Hf, <- app_assoc. simpl. f_equal. lia.
Qed.

Lemma process_segment_nonempty : forall d toks k, In k toks ->
  exists e es, obj_get (process_segment d toks) k = Some (e :: es).
Proof.
  intros d toks k Hk. unfold process_segment. rewrite obj_get_fold_set.
  rewrite (proj2 (mem_In _ _) Hk). unfold lookup_token.
  destruct (match obj_get d (toLowerCase k) with Some l => l | None => [] end) as [|e es].
  - exists (unk_entry k), []. reflexivity.
  - exists e, es. reflexivity.
Qed.

Lemma compose_process_segment : forall d toks,
  let o := process_segment d toks in
  composeDictionaryTranslation o =
  mkComposition (join (js " ") (map (fun k => mos (first_entry o k)) (obj_keys o)))
    (if (0 <? length (obj_keys o))%nat
     then num_div (fold_left (fun acc k => num_add acc (score (first_entry o k))) (obj_keys o) (Fin 0))
                  (num_of_nat (length (obj_keys o)))
     else Fin 0)
    (length (obj_keys o)).
Proof.
  intros d toks o. unfold composeDictionaryTranslation.
  rewrite compose_loop_nonempty.
  - reflexivity.
  - intros k Hk. apply process_segment_nonempty. apply In_obj_keys_process in Hk. exact Hk.
Qed.

(** C10: when a token text occurs at least twice in a segment, the object of
    per-token results holds it once, so [composeDictionaryTranslation] visits
    it once: its winning translation enters the composed target and the
    confidence mean once, and the number of composed words is the number of
    distinct tokens, fewer than the tokens of the segment. *)
Theorem duplicate_tokens_collapse :
  forall (d : jsobj (list dict_entry)) (toks : list jsstr) (t : jsstr),
    (2 <= count_occ token_dec toks t)%nat ->
    let o := process_segment d toks in
    let c := composeDictionaryTranslation o in
    count_occ token_dec (obj_keys o) t = 1%nat /\
    comp_mos c = join (js " ") (map (fun k => mos (first_entry o k)) (obj_keys o)) /\
    comp_confidence c =
      num_div (fold_left (fun acc k => num_add acc (score (first_entry o k))) (obj_keys o) (Fin 0))
              (num_of_nat (word_count c)) /\
    word_count c = length (obj_keys o) /\
    (word_count c < length toks)%nat.
Proof.
  intros d toks t Hc o c.
  assert (Hlen : length (obj_keys o) = length (fold_left add_key toks [])).
  { rewrite (Permutation_length (obj_keys_perm o)). unfold o. rewrite keys_process_segment.
    reflexivity. }
  assert (Hlt : (length (obj_keys o) < length toks)%nat).
  { rewrite Hlen. pose proof (fold_add_key_dup toks [] t Hc). simpl in *. unfold jsstr in *. lia. }
  assert (Hpos : (0 < length (obj_keys o))%nat).
  { destruct (obj_keys o) as [|k ks] eqn:Hk; [|simpl; lia].
    exfalso. assert (Ht : In t toks) by (apply (count_occ_In token_dec); lia).
    apply (In_obj_keys_process d) in Ht. fold o in Ht. rewrite Hk in Ht. contradiction. }
  unfold c, o. rewrite compose_process_segment. fold o. simpl.
  apply Nat.ltb_lt in Hpos. rewrite Hpos. apply Nat.ltb_lt in Hpos.
  split; [|repeat split; assumption].
  rewrite (proj1 (Permutation_count_occ token_dec _ _) (obj_keys_perm o)).
  apply NoDup_count_occ'; [apply NoDup_keys_process|].
  unfold o. rewrite keys_process_segment, In_fold_add_key. right.
  apply (count_occ_In token_dec). lia.
Qed.

Lemma duplicate_tokens_collapse_witness :
  (2 <= count_occ token_dec [js "le"; js "chat"; js "le"] (js "le"))%nat /\
  (word_count (composeDictionaryTranslation (process_segment [] [js "le"; js "chat"; js "le"]))
     < length [js "le"; js "chat"; js "le"])%nat.
Proof.
  split.
  - vm_compute. lia.
  - apply (duplicate_tokens_collapse [] [js "le"; js "chat"; js "le"] (js "le")). vm_compute. lia.
Defined.

(** ** Corpus query *)

Lemma num_div_nat_fin : forall a b, (0 < b)%nat ->
  num_div (num_of_nat a) (num_of_nat b) = Fin (inject_Z (Z.of_nat a) / inject_Z (Z.of_nat b)).
Proof.
  intros a [|b] H; [lia|]. unfold num_div, num_of_nat, qsign.
  replace (inject_Z (Z.of_nat (S b)) ?= 0) with Gt by reflexivity. reflexivity.
Qed.

Lemma calculateSimilarity_fin : forall s1 s2, exists r, calculateSimilarity s1 s2 = Fin r.
Proof.
  intros s1 s2. unfold calculateSimilarity. cbv zeta.
  destruct (length _ =? 0)%nat eqn:Z0; [eexists; reflexivity|].
  apply Nat.eqb_neq in Z0. rewrite num_div_nat_fin by lia. eexists; reflexivity.
Qed.

Lemma collect_matches_spec : forall q c m, In m (collect_matches q c) ->
  fin_sim m /\ 6 # 10 < simq m.
Proof.
  intros q. induction c as [|e r IH]; intros m Hm; simpl in Hm; [contradiction|].
  destruct (calculateSimilarity_fin q (toLowerCase (entry_fr e))) as [s Hs].
  cbv zeta in Hm. rewrite Hs in Hm. simpl in Hm. destruct (qltb (6 # 10) s) eqn:G.
  - destruct Hm as [<-|Hm]; [|apply IH; exact Hm].
    unfold fin_sim, simq. simpl. split; [eexists; reflexivity|].
    apply qltb_iff. exact G.
  - apply IH. exact Hm.
Qed.

Lemma cmp_lt_q : forall x y, fin_sim x -> fin_sim y ->
  num_lt (sim_cmp x y) (Fin 0) = qltb (simq y) (simq x).
Proof.
  intros x y [a Ha] [b Hb]. unfold sim_cmp, simq. rewrite Ha, Hb. simpl.
  destruct (qltb b a) eqn:E.
  - apply qltb_iff. apply qltb_iff in E. lra.
  - apply qltb_false. apply qltb_false in E. lra.
Qed.

Lemma sort_insert_perm : forall x l, Permutation (sort_insert x l) (x :: l).
Proof.
  intros x. induction l as [|y r IH]; simpl; [reflexivity|].
  destruct (num_lt (sim_cmp x y) (Fin 0)); [reflexivity|].
  rewrite IH. apply perm_swap.
Qed.

Lemma sort_fold_perm : forall l acc,
  Permutation (fold_left (fun acc x => sort_insert x acc) l acc) (acc ++ l).
Proof.
  induction l as [|x r IH]; intros acc; simpl; [rewrite app_nil_r; reflexivity|].
  rewrite IH, sort_insert_perm. simpl. apply Permutation_middle.
Qed.

Lemma sort_insert_hd : forall x y l, Forall fin_sim l -> fin_sim x ->
  HdRel Rq y l -> simq x <= simq y -> HdRel Rq y (sort_insert x l).
Proof.
  intros x y [|z r] Hf Hx Hh Hle; simpl.
  - constructor. exact Hle.
  - inversion Hf; subst. rewrite cmp_lt_q by assumption.
    destruct (qltb (simq z) (simq x)); constructor; [exact Hle|].
    inversion Hh. assumption.
Qed.

Lemma sort_insert_sorted : forall x l, Forall fin_sim l -> fin_sim x ->
  Sorted Rq l -> Sorted Rq (sort_insert x l).
Proof.
  intros x. induction l as [|y r IH]; intros Hf Hx Hs; simpl.
  - repeat constructor.
  - inversion Hf; subst. apply Sorted_inv in Hs as [Hs Hh].
    rewrite cmp_lt_q by assumption.
    destruct (qltb (simq y) (simq x)) eqn:E.
    + apply qltb_iff in E. constructor; [constructor; assumption|].
      constructor. unfold Rq. lra.
    + apply qltb_false in E. constructor; [apply IH; assumption|].
      apply sort_insert_hd; assumption.
Qed.

Lemma Forall_perm {A} : forall (P : A -> Prop) l l', Permutation l l' -> Forall P l' -> Forall P l.
Proof.
  intros P l l' Hp H. rewrite Forall_forall in *. intros x Hx.
  apply H. apply (Permutation_in _ Hp). exact Hx.
Qed.

Lemma sort_fold_sorted : forall l acc, Forall fin_sim l -> Forall fin_sim acc ->
  Sorted Rq acc -> Sorted Rq (fold_left (fun acc x => sort_insert x acc) l acc).
Proof.
  induction l as [|x r IH]; intros acc Hl Ha Hs; simpl; [exact Hs|].
  inversion Hl; subst. apply IH; [assumption| |].
  - apply (Forall_perm _ _ _ (sort_insert_perm x acc)). constructor; assumption.
  - apply sort_insert_sorted; assumption.
Qed.

Section Stability.
Variable q : Q.

Lemma same_sim_q : forall m, fin_sim m -> same_sim q m = Qeq_bool (simq m) q.
Proof. intros m [r Hr]. unfold same_sim, simq. rewrite Hr. reflexivity. Qed.

Lemma filter_below : forall l, Forall fin_sim l ->
  Forall (fun z => simq z < q) l -> filter (same_sim q) l = [].
Proof.
  induction l as [|z r IH]; intros Hf Hb; simpl; [reflexivity|].
  inversion Hf; inversion Hb; subst. rewrite same_sim_q by assumption.
  destruct (Qeq_bool (simq z) q) eqn:E.
  - apply Qeq_bool_iff in E. lra.
  - apply IH; assumption.
Qed.

Lemma sort_insert_filter : forall x l, Forall fin_sim l -> fin_sim x -> Sorted Rq l ->
  filter (same_sim q) (sort_insert x l) =
  if same_sim q x then filter (same_sim q) l ++ [x] else filter (same_sim q) l.
Proof.
  intros x. induction l as [|y r IH]; intros Hf Hx Hs.
  - simpl. destruct (same_sim q x); reflexivity.
  - inversion Hf; subst. cbn [sort_insert]. rewrite cmp_lt_q by assumption.
    destruct (qltb (simq y) (simq x)) eqn:E.
    + apply qltb_iff in E. cbn [filter]. fold (filter (same_sim q) (y :: r)).
      destruct (same_sim q x) eqn:Sx; [|reflexivity].
      rewrite same_sim_q in Sx by assumption. apply Qeq_bool_iff in Sx.
      assert (Hyr : filter (same_sim q) (y :: r) = []).
      { apply filter_below; [constructor; assumption|].
        apply Sorted_StronglySorted in Hs; [|intros a b c Hab Hbc; unfold Rq in *; lra].
        apply StronglySorted_inv in Hs as [_ Hall].
        constructor; [lra|].
        rewrite Forall_forall in *. intros z Hz. specialize (Hall z Hz). unfold Rq in Hall. lra. }
      simpl in Hyr. rewrite Hyr. reflexivity.
    + apply Sorted_inv in Hs as [Hs _]. simpl. rewrite IH by assumption.
      destruct (same_sim q y), (same_sim q x); reflexivity.
Qed.

Lemma sort_fold_filter : forall l acc, Forall fin_sim l -> Forall fin_sim acc -> Sorted Rq acc ->
  filter (same_sim q) (fold_left (fun acc x => sort_insert x acc) l acc) =
  filter (same_sim q) acc ++ filter (same_sim q) l.
Proof.
  induction l as [|x r IH]; intros acc Hl Ha Hs; simpl; [rewrite app_nil_r; reflexivity|].
  inversion Hl; subst. rewrite IH.
  - rewrite sort_insert_filter by assumption.
    destruct (same_sim q x); [rewrite <- app_assoc; reflexivity | reflexivity].
  - assumption.
  - apply (Forall_perm _ _ _ (sort_insert_perm x acc)). constructor; assumption.
  - apply sort_insert_sorted; assumption.
Qed.
End Stability.

Lemma Sorted_firstn {A} : forall (R : A -> A -> Prop) n l, Sorted R l -> Sorted R (firstn n l).
Proof.
  intros R n. induction n as [|n IH]; intros l Hs; simpl; [constructor|].
  destruct l as [|a r]; [constructor|].
  apply Sorted_inv in Hs as [Hs Hh]. constructor; [apply IH; exact Hs|].
  destruct n, r; simpl; constructor. inversion Hh. assumption.
Qed.

Lemma In_firstn_in {A} : forall n (l : list A) x, In x (firstn n l) -> In x l.
Proof.
  induction n as [|n IH]; intros [|a r] x H; simpl in *; try contradiction.
  destruct H as [H|H]; [left; exact H | right; apply (IH r x H)].
Qed.

Lemma filter_firstn_prefix {A} : forall (p : A -> bool) n l,
  exists rest, filter p l = filter p (firstn n l) ++ rest.
Proof.
  intros p n l. exists (filter p (skipn n l)).
  rewrite <- filter_app, firstn_skipn. reflexivity.
Qed.

Lemma Sorted_Forall_impl {A} : forall (P : A -> Prop) (R R' : A -> A -> Prop) l,
  (forall a b, P a -> P b -> R a b -> R' a b) -> Forall P l -> Sorted R l -> Sorted R' l.
Proof.
  intros P R R' l Himp. induction l as [|a r IH]; intros Hf Hs; [constructor|].
  inversion Hf; subst. apply Sorted_inv in Hs as [Hs Hh]. constructor; [apply IH; assumption|].
  destruct r as [|b r']; constructor. inversion Hh; subst. inversion Hf; subst.
  match goal with H : Forall P (b :: r') |- _ => inversion H; subst end.
  apply Himp; assumption.
Qed.

Lemma Forall_firstn {A} : forall (P : A -> Prop) n l, Forall P l -> Forall P (firstn n l).
Proof.
  intros P n l H. rewrite Forall_forall in *. intros x Hx. apply H.
  apply (In_firstn_in n l x Hx).
Qed.

(** Claim C5: for every corpus and every query, [searchCorpus] returns at
    most five matches, each with a similarity strictly above 0.6, in
    non-increasing order of similarity; and for every similarity value [q],
    the returned matches of similarity [q] are a prefix, in the same order,
    of the matches of similarity [q] in corpus order (ties keep the corpus
    order, and the cut at five keeps the earliest of a tie). *)
Theorem searchCorpus_bounded_sorted_stable : forall c query,
  let out := searchCorpus c query in
  let found := collect_matches (toLowerCase query) c in
  (length out <= 5)%nat /\
  Forall (fun m => num_gt (m_sim m) (Fin (6 # 10)) = true) out /\
  Sorted (fun a b => num_le (m_sim b) (m_sim a) = true) out /\
  (forall q, exists rest, filter (same_sim q) found = filter (same_sim q) out ++ rest).
Proof.
  intros c query out found.
  assert (Hfound : Forall (fun m => fin_sim m /\ 6 # 10 < simq m) found).
  { apply Forall_forall. intros m Hm. apply (collect_matches_spec _ _ _ Hm). }
  assert (Hfin : Forall fin_sim found).
  { eapply Forall_impl; [|exact Hfound]. intros m [H _]. exact H. }
  assert (Hsorted : Sorted Rq (sort_matches found)).
  { apply sort_fold_sorted; [exact Hfin | constructor | constructor]. }
  assert (Hall : Forall (fun m => fin_sim m /\ 6 # 10 < simq m) out).
  { apply Forall_firstn. unfold sort_matches.
    apply (Forall_perm _ _ _ (sort_fold_perm found [])). exact Hfound. }
  split; [|split; [|split]].
  - unfold out, searchCorpus. rewrite length_firstn. lia.
  - eapply Forall_impl; [|exact Hall]. intros m [[r Hr] Hlt].
    unfold simq in Hlt. rewrite Hr in *. simpl. apply qltb_iff. exact Hlt.
  - apply (Sorted_Forall_impl (fun m => fin_sim m /\ 6 # 10 < simq m) Rq); [| exact Hall |].
    + intros a b [[ra Ha] _] [[rb Hb] _] H. unfold Rq, simq in H. rewrite Ha, Hb in *.
      simpl. apply Qle_bool_iff. exact H.
    + apply Sorted_firstn. exact Hsorted.
  - intros q. destruct (filter_firstn_prefix (same_sim q) 5 (sort_matches found)) as [rest Hr].
    exists rest. unfold out, searchCorpus. fold found. rewrite <- Hr.
    unfold sort_matches. rewrite sort_fold_filter; [reflexivity | exact Hfin | constructor | constructor].
Qed.

(** ** Referee *)

Lemma num_lt_trans : forall x y z, num_lt x y = true -> num_lt y z = true -> num_lt x z = true.
Proof.
  intros [a| | |] [b| | |] [c| | |]; simpl; try discriminate; try reflexivity.
  rewrite !qltb_iff. intros; lra.
Qed.

Lemma num_not_lt_lt : forall p b x, is_nan p = false ->
  num_lt b p = false -> num_lt b x = true -> num_lt p x = true.
Proof.
  intros [a| | |] [b| | |] [c| | |]; simpl; try discriminate; try reflexivity.
  rewrite qltb_false, !qltb_iff. intros; lra.
Qed.

Lemma first_max_single : forall c, first_max [c] c.
Proof. intros c. exists [], []. repeat split; constructor. Qed.

Lemma first_max_snoc : forall l b x, Forall not_nan l -> first_max l b ->
  first_max (l ++ [x]) (pick b x).
Proof.
  intros l b x Hn [pre [post [Hl [Hpre Hpost]]]]. unfold pick.
  destruct (num_gt (c_confidence x) (c_confidence b)) eqn:G.
  - exists (pre ++ b :: post), []. split; [rewrite Hl, <- app_assoc; reflexivity|].
    split; [|constructor].
    rewrite Hl in Hn. apply Forall_app in Hn as [_ Hn]. inversion Hn; subst.
    apply Forall_app. split; [|constructor].
    + eapply Forall_impl; [|exact Hpre]. intros c Hc. eapply num_lt_trans; [exact Hc | exact G].
    + exact G.
    + rewrite Forall_forall in *. intros p Hp.
      apply (num_not_lt_lt _ (c_confidence b)); [apply H2; exact Hp | apply Hpost; exact Hp | exact G].
  - exists pre, (post ++ [x]). split; [rewrite Hl, <- app_assoc; reflexivity|].
    split; [exact Hpre|]. apply Forall_app. split; [exact Hpost | constructor; [exact G | constructor]].
Qed.

Lemma first_max_fold : forall r l b, Forall not_nan l -> Forall not_nan r -> first_max l b ->
  first_max (l ++ r) (fold_left pick r b).
Proof.
  induction r as [|x r IH]; intros l b Hl Hr Hb; simpl; [rewrite app_nil_r; exact Hb|].
  inversion Hr; subst. replace (l ++ x :: r) with ((l ++ [x]) ++ r) by (rewrite <- app_assoc; reflexivity).
  apply IH; [apply Forall_app; split; [exact Hl | constructor; [assumption | constructor]] | exact H2 |].
  apply first_max_snoc; assumption.
Qed.

Lemma dict_candidates_length : forall dr, (length (dict_candidates dr) <= 1)%nat.
Proof.
  intros [dr|]; simpl; [|lia]. destruct (is_nil _); simpl; lia.
Qed.

Lemma corpus_candidates_not_nan : forall c query,
  Forall not_nan (corpus_candidates (searchCorpus c query)).
Proof.
  intros c query. unfold corpus_candidates. apply Forall_map. apply Forall_forall.
  intros m Hm. unfold not_nan. simpl.
  apply In_firstn_in in Hm. unfold sort_matches in Hm.
  apply (Permutation_in _ (sort_fold_perm _ [])) in Hm. simpl in Hm.
  destruct (collect_matches_spec _ _ _ Hm) as [[r Hr] _]. rewrite Hr. reflexivity.
Qed.

(** C2 (evaluation at the counterexample): the sentence ",." has one segment
    "," with no token; with no dictionary and no corpus, its candidate list is
    empty, and the final target is the untranslated placeholder, which is not
    in the list. *)
Theorem candidates_empty_without_evidence :
  map (fun s => (candidates (s_decision s), final (s_decision s)))
      (translate_sentence None None (js ",.")) = [([], js "<UNTRANSLATED:,>")].
Proof. vm_compute. reflexivity. Qed.

(** C2 (amended): for every segment, dictionary result and corpus, the
    decision made on the corpus matches of the segment's text either has an
    empty candidate list, and then its final target is the sentinel's
    "<UNTRANSLATED:text>" (the sentinel itself is not listed), or its final
    target is that of a listed candidate [w] such that every candidate listed
    before [w] has a strictly smaller confidence and no candidate listed
    after [w] has a greater one: [w] is the earliest candidate of maximum
    confidence. *)
Theorem makeDecision_first_maximum : forall seg dictResult c,
  let d := makeDecision seg dictResult (searchCorpus c (text seg)) in
  (candidates d = [] /\ final d = js "<UNTRANSLATED:" ++ text seg ++ js ">") \/
  (exists pre w post, candidates d = pre ++ w :: post /\ final d = c_mos w /\
     Forall (fun x => num_lt (c_confidence x) (c_confidence w) = true) pre /\
     Forall (fun x => num_gt (c_confidence x) (c_confidence w) = false) post).
Proof.
  intros seg dictResult c d. unfold d, makeDecision. cbn zeta. cbn [candidates final].
  pose proof (corpus_candidates_not_nan c (text seg)) as Hn.
  pose proof (dict_candidates_length dictResult) as Hlen.
  destruct (corpus_candidates (searchCorpus c (text seg))) as [|c0 r] eqn:Hcc.
  - destruct (dict_candidates dictResult) as [|x [|y z]] eqn:Hd; simpl in Hlen |- *.
    + left. split; reflexivity.
    + right. destruct (first_max_single x) as [pre [post [H1 [H2 H3]]]].
      exists pre, x, post. repeat split; assumption.
    + lia.
  - assert (Hr : first_max (c0 :: r) (fold_left pick r c0)).
    { apply (first_max_fold r [c0]); [inversion Hn; constructor; [assumption | constructor] |
        inversion Hn; assumption | apply first_max_single]. }
    assert (Hw : first_max ((c0 :: r) ++ dict_candidates dictResult)
                   (select_best seg ((c0 :: r) ++ dict_candidates dictResult))).
    { simpl select_best. rewrite fold_left_app.
      destruct (dict_candidates dictResult) as [|x [|y z]] eqn:Hd; simpl in Hlen.
      - rewrite app_nil_r. exact Hr.
      - simpl. apply (first_max_snoc (c0 :: r)); assumption.
      - lia. }
    destruct Hw as [pre [post [H1 [H2 H3]]]]. right.
    exists pre, (select_best seg ((c0 :: r) ++ dict_candidates dictResult)), post.
    repeat split; assumption.
Qed.

(** ** Zero dictionary coverage *)






Lemma trim_start_hd : forall l x r, trim_start l = x :: r -> is_ws x = false.
Proof.
  induction l as [|z m IH]; intros x r E; simpl in E; [discriminate|].
  destruct (is_ws z) eqn:Z; [apply (IH x r E) | congruence].
Qed.







(** ** The corpus scenario "Je vais au marche." *)

(** C4 (evaluation at the failing input): the pipeline on "Je vais au
    marche." with the corpus pair and the dictionary je, aller makes one
    segment, whose text has lost its final "." (the Splitter's documented
    example keeps the terminator: "Je vais bien."); its similarity to the
    corpus sentence is 3/5 (three shared words of five), not above 0.6, so
    there is no corpus candidate, the dictionary composition is chosen and
    the composite confidence is not 1.  For the segment that keeps the ".",
    as documented, the corpus query finds the pair with similarity 1, the
    corpus candidate wins and the composite confidence is 1. *)
Theorem marche_pipeline_no_corpus_match :
  let out := translate_sentence marche_dict_file marche_corpus marche_src in
  let ms := searchCorpus (corpus (loadCorpus (mkCorpusRetriever [] false) marche_corpus)) marche_src in
  let dec := makeDecision marche_full_segment
               (Some (process_segment (load_dict_file marche_dict_file) (tokens marche_full_segment))) ms in
  map (fun s => src_text (s_decision s)) out = [js "Je vais au march" ++ [233%N]] /\
  num_eqb (calculateSimilarity (toLowerCase (js "Je vais au march" ++ [233%N]))
                               (toLowerCase marche_src)) (Fin (3 # 5)) = true /\
  map (fun s => map c_source (candidates (s_decision s))) out = [[Dictionary]] /\
  map (fun s => num_eqb (composite_confidence s) (Fin 1)) out = [false] /\
  map (fun m => num_eqb (m_sim m) (Fin 1)) ms = [true] /\
  final dec = marche_target /\
  map c_source (candidates dec) = [Corpus; Dictionary] /\
  num_eqb (composite_confidence (calculateCompositeScore dec)) (Fin 1) = true.
Proof. vm_compute. repeat split. Qed.



(* ================================================================== *)
(** * Further properties of the code *)

(** ** Splitter *)

Lemma split_runs_aux_pieces : forall p s cur b, Forall (fun c => p c = false) cur ->
  Forall (fun piece => Forall (fun c => p c = false) piece) (split_runs_aux p s cur b).
Proof.
  intros p. induction s as [|c r IH]; intros cur b Hcur; simpl.
  - constructor; [apply Forall_rev; exact Hcur | constructor].
  - destruct (p c) eqn:Pc.
    + destruct b; [apply IH; constructor|].
      constructor; [apply Forall_rev; exact Hcur | apply IH; constructor].
    + apply IH. constructor; assumption.
Qed.

Lemma split_runs_aux_concat : forall p s cur b, (b = true -> cur = []) ->
  List.concat (split_runs_aux p s cur b) = rev cur ++ filter (fun c => negb (p c)) s.
Proof.
  intros p. induction s as [|c r IH]; intros cur b Hb; simpl.
  - rewrite app_nil_r. reflexivity.
  - destruct (p c) eqn:Pc; simpl.
    + destruct b; simpl.
      * rewrite (Hb eq_refl). rewrite IH by reflexivity. reflexivity.
      * rewrite IH by reflexivity. reflexivity.
    + rewrite IH by discriminate. simpl. rewrite <- app_assoc. reflexivity.
Qed.

Lemma concat_filter_nonempty : forall (l : list jsstr),
  List.concat (filter (fun tok => negb (is_nil tok)) l) = List.concat l.
Proof.
  induction l as [|x r IH]; simpl; [reflexivity|].
  destruct x; simpl; rewrite IH; reflexivity.
Qed.

(** X1: [Splitter.tokenize] returns non-empty tokens free of white space and
    punctuation, whose concatenation is the text with its white space and
    punctuation units removed: no other unit is lost, none is added. *)
Theorem tokenize_pieces : forall t,
  Forall (fun tok => tok <> [] /\ Forall (fun c => is_ws c || is_punct c = false) tok) (tokenize t) /\
  List.concat (tokenize t) = filter (fun c => negb (is_ws c || is_punct c)) t.
Proof.
  intros t. unfold tokenize, split_runs. split.
  - apply Forall_forall. intros tok Hin. apply filter_In in Hin as [Hin Hne].
    split; [destruct tok; simpl in Hne; discriminate|].
    pose proof (split_runs_aux_pieces (fun c => is_ws c || is_punct c) t [] false (Forall_nil _)) as H.
    rewrite Forall_forall in H. apply H. exact Hin.
  - rewrite concat_filter_nonempty, split_runs_aux_concat by discriminate. reflexivity.
Qed.

Lemma trim_start_suffix : forall l, exists w, l = w ++ trim_start l.
Proof.
  induction l as [|x r IH]; simpl; [exists []; reflexivity|].
  destruct (is_ws x); [destruct IH as [w Hw]; exists (x :: w); simpl; congruence|].
  exists []. reflexivity.
Qed.

Lemma trim_start_id : forall l, (forall x r, l = x :: r -> is_ws x = false) -> trim_start l = l.
Proof.
  intros [|x r] H; simpl; [reflexivity|]. rewrite (H x r eq_refl). reflexivity.
Qed.

Lemma trim_idem : forall s, trim (trim s) = trim s.
Proof.
  intros s. unfold trim at 2. set (u := trim_start s). set (v := trim_start (rev u)).
  assert (Hv : forall x r, v = x :: r -> is_ws x = false) by (intros x r E; eapply trim_start_hd; exact E).
  destruct (trim_start_suffix (rev u)) as [w Hw]. fold v in Hw.
  assert (Hu : u = rev v ++ rev w) by (rewrite <- rev_app_distr, <- Hw, rev_involutive; reflexivity).
  assert (Hrv : forall x r, rev v = x :: r -> is_ws x = false).
  { intros x r E. assert (Hux : u = x :: (r ++ rev w)) by (rewrite Hu, E; reflexivity).
    eapply trim_start_hd. fold u. exact Hux. }
  unfold trim. rewrite (trim_start_id (rev v) Hrv), rev_involutive, (trim_start_id v Hv). reflexivity.
Qed.

Lemma In_trim : forall s c, In c (trim s) -> In c s.
Proof.
  intros s c H. unfold trim in H. apply in_rev in H.
  destruct (trim_start_suffix (rev (trim_start s))) as [w Hw].
  assert (H1 : In c (rev (trim_start s))) by (rewrite Hw; apply in_or_app; right; exact H).
  apply in_rev in H1. destruct (trim_start_suffix s) as [w' Hw'].
  rewrite Hw'. apply in_or_app. right. exact H1.
Qed.

Lemma nth_make_segments : forall l k i,
  nth_error (make_segments k l) i =
  option_map (fun x => mkSegment (js "s" ++ N_to_string (N.of_nat (S (k + i)))) (trim x) (tokenize (trim x)))
             (nth_error l i).
Proof.
  induction l as [|x r IH]; intros k i; simpl; [destruct i; reflexivity|].
  destruct i as [|i]; simpl.
  - rewrite Nat.add_0_r. reflexivity.
  - rewrite IH. replace (S k + i)%nat with (k + S i)%nat by lia. reflexivity.
Qed.

Lemma splitter_seg_id : forall src i s, nth_error (splitter src) i = Some s ->
  seg_id s = js "s" ++ N_to_string (N.of_nat (S i)).
Proof.
  intros src i s H. unfold splitter in H. rewrite nth_make_segments in H.
  destruct (nth_error _ i) as [x|]; simpl in H; [|discriminate].
  injection H as <-. reflexivity.
Qed.

(** X2: the [i]-th segment made by [Splitter.process] (from 0) has the id
    "s<i+1>"; its text is non-empty, already trimmed, and free of ".", "!"
    and "?"; its tokens are [tokenize] of its text. *)
Theorem splitter_segment_shape : forall src i s,
  nth_error (splitter src) i = Some s ->
  seg_id s = js "s" ++ N_to_string (N.of_nat (S i)) /\ text s <> [] /\
  trim (text s) = text s /\ Forall (fun c => is_sentence_end c = false) (text s) /\
  tokens s = tokenize (text s).
Proof.
  intros src i s H. unfold splitter in H. rewrite nth_make_segments in H.
  destruct (nth_error _ i) as [x|] eqn:Hx; simpl in H; [|discriminate].
  injection H as <-. cbn [seg_id text tokens].
  pose proof (nth_error_In _ _ Hx) as Hin. apply filter_In in Hin as [Hin Hne].
  split; [reflexivity|]. split; [destruct (trim x); [discriminate | congruence]|].
  split; [apply trim_idem|]. split; [|reflexivity].
  pose proof (split_runs_aux_pieces is_sentence_end src [] false (Forall_nil _)) as Hp.
  rewrite Forall_forall in Hp. specialize (Hp x Hin).
  rewrite Forall_forall in *. intros c Hc. apply Hp. apply In_trim. exact Hc.
Qed.

Lemma splitter_segment_shape_witness :
  nth_error (splitter (js "Bonjour. Au revoir!")) 1 =
    Some (mkSegment (js "s2") (js "Au revoir") [js "Au"; js "revoir"]) /\
  trim (js "Au revoir") = js "Au revoir".
Proof.
  assert (H : nth_error (splitter (js "Bonjour. Au revoir!")) 1 =
                Some (mkSegment (js "s2") (js "Au revoir") [js "Au"; js "revoir"])) by (vm_compute; reflexivity).
  split; [exact H|].
  exact (proj1 (proj2 (proj2 (splitter_segment_shape _ _ _ H)))).
Defined.

Lemma uint_units_inj : forall u v, uint_units u = uint_units v -> u = v.
Proof.
  induction u; destruct v; simpl; intros H; try discriminate; try reflexivity;
    injection H as H; f_equal; apply IHu; exact H.
Qed.

Lemma N_to_string_inj : forall a b, N_to_string a = N_to_string b -> a = b.
Proof.
  intros a b H. apply uint_units_inj in H.
  rewrite <- (DecimalN.Unsigned.of_to a), <- (DecimalN.Unsigned.of_to b), H. reflexivity.
Qed.

Lemma splitter_ids_NoDup : forall src, NoDup (map seg_id (splitter src)).
Proof.
  intros src. apply NoDup_nth_error. intros i j Hi Hij.
  rewrite length_map in Hi. rewrite !nth_error_map in Hij.
  destruct (nth_error (splitter src) i) as [si|] eqn:Ei;
    [|apply nth_error_None in Ei; lia].
  destruct (nth_error (splitter src) j) as [sj|] eqn:Ej; [|discriminate].
  simpl in Hij. injection Hij as Hij.
  rewrite (splitter_seg_id _ _ _ Ei), (splitter_seg_id _ _ _ Ej) in Hij.
  apply app_inv_head in Hij. apply N_to_string_inj in Hij. lia.
Qed.

Lemma dict_process_other : forall d segs o k, ~ In k (map seg_id segs) ->
  obj_get (fold_left (fun res s => obj_set res (seg_id s) (process_segment d (tokens s))) segs o) k
  = obj_get o k.
Proof.
  intros d. induction segs as [|s r IH]; intros o k Hk; simpl in *; [reflexivity|].
  rewrite IH by tauto. apply obj_get_set_other. intros E. apply Hk. left. congruence.
Qed.

Lemma dict_process_get : forall d segs o s, NoDup (map seg_id segs) -> In s segs ->
  obj_get (fold_left (fun res s => obj_set res (seg_id s) (process_segment d (tokens s))) segs o)
          (seg_id s) = Some (process_segment d (tokens s)).
Proof.
  intros d. induction segs as [|s0 r IH]; intros o s Hnd Hin; simpl in *; [contradiction|].
  inversion Hnd; subst. destruct Hin as [<-|Hin].
  - rewrite dict_process_other by assumption. apply obj_get_set_same.
  - apply IH; assumption.
Qed.

Lemma referee_process_map : forall (f : segment -> list match_rec) dres segs,
  referee_process segs dres (map f segs) =
  map (fun s => makeDecision s (obj_get dres (seg_id s)) (f s)) segs.
Proof.
  intros f dres. induction segs as [|s r IH]; simpl; [reflexivity|]. rewrite IH. reflexivity.
Qed.

(** X3: the pipeline makes one scored decision per segment of the Splitter,
    in order; the Referee gets, for each segment, the dictionary results of
    that segment's own tokens (segment ids are distinct, so no segment reads
    another's results) and the corpus matches of its own text. *)
Theorem pipeline_per_segment : forall dict_file corpus_file src,
  translate_sentence dict_file corpus_file src =
  map (fun s => calculateCompositeScore
         (makeDecision s (Some (process_segment (load_dict_file dict_file) (tokens s)))
            (searchCorpus (corpus (loadCorpus (mkCorpusRetriever [] false) corpus_file)) (text s))))
      (splitter src).
Proof.
  intros dict_file corpus_file src. unfold translate_sentence. cbv zeta.
  rewrite referee_process_map, map_map. apply map_ext_in. intros s Hs.
  unfold dict_process, load_dict_file. rewrite dict_process_get; [reflexivity | apply splitter_ids_NoDup | exact Hs].
Qed.

(** ** DictionaryLookup.loadDictionary and process *)

Lemma opt_app_nil {A} : forall (o : option (list A)), opt_app o [] = o.
Proof. intros [a|]; simpl; [rewrite app_nil_r|]; reflexivity. Qed.

Lemma obj_get_keys {A} : forall (o : jsobj A) k,
  (exists v, obj_get o k = Some v) <-> In k (map fst o).
Proof.
  induction o as [|[k0 v0] r IH]; intros k; simpl.
  - split; [intros [v H]; discriminate | contradiction].
  - jseq k k0.
    + split; [left; reflexivity | intros _; exists v0; reflexivity].
    + rewrite IH. split; [tauto|]. intros [H|H]; [congruence | exact H].
Qed.

Lemma load_line_get : forall d line k,
  obj_get (load_line d line) k = opt_app (obj_get d k) (line_records k line).
Proof.
  intros d line k. unfold line_records, load_line.
  destruct (nth_error (split_char 9 line) 0) as [[|f fr]|];
    try (simpl; rewrite opt_app_nil; reflexivity).
  destruct (nth_error (split_char 9 line) 1) as [[|m mr]|];
    try (simpl; rewrite opt_app_nil; reflexivity).
  set (key := toLowerCase (f :: fr)). cbv zeta.
  set (e := make_entry (m :: mr) (nth_error (split_char 9 line) 2) (nth_error (split_char 9 line) 3)).
  jseq k key.
  - simpl. rewrite jsstr_eqb_refl, !obj_get_set_same. simpl.
    destruct (mem key (map fst d)) eqn:M.
    + apply mem_In, obj_get_keys in M as [v Hv]. rewrite Hv. reflexivity.
    + rewrite obj_get_set_same. apply mem_false in M.
      destruct (obj_get d key) eqn:G; [|reflexivity].
      exfalso. apply M, obj_get_keys. eexists; exact G.
  - rewrite !obj_get_set_other by exact N. cbn [map mem existsb].
    rewrite obj_get_set_other by exact N. cbn [obj_get]. rewrite opt_app_nil.
    destruct (mem key (map fst d)); [reflexivity | apply obj_get_set_other; exact N].
Qed.

Lemma opt_app_app {A} : forall (o : option (list A)) l1 l2,
  opt_app (opt_app o l1) l2 = opt_app o (l1 ++ l2).
Proof.
  intros [a|] [|x l1] [|y l2]; simpl; rewrite ?app_nil_r, <- ?app_assoc; reflexivity.
Qed.

Lemma fold_load_line_get : forall lines d k,
  obj_get (fold_left load_line lines d) k = opt_app (obj_get d k) (flat_map (line_records k) lines).
Proof.
  induction lines as [|line r IH]; intros d k; simpl.
  - destruct (obj_get d k); simpl; try rewrite app_nil_r; reflexivity.
  - rewrite IH, load_line_get, opt_app_app. reflexivity.
Qed.

(** X4: after [loadDictionary] on a file, the array stored under a key is
    the concatenation, in file order, of the records each non-blank line of
    the file pushes under that key (a line with a non-empty French and
    Mooré field pushes one record under its case-folded French word, other
    lines push nothing); a key no line pushes to is absent, so no stored
    array is empty. *)
Theorem loadDictionary_groups_by_key : forall data k,
  let lines := filter (fun l => negb (is_nil (trim l))) (split_char 10%N data) in
  let recs := flat_map (line_records k) lines in
  obj_get (load_dict_file (Some data)) k = match recs with [] => None | _ => Some recs end.
Proof.
  intros data k lines recs. unfold load_dict_file, loadDictionary. simpl.
  rewrite fold_load_line_get. simpl. unfold recs, lines. destruct (flat_map _ _); reflexivity.
Qed.

(** X5: for a token whose case-folded form has a non-empty array in the
    dictionary, [DictionaryLookup.process] stores under the token that whole
    array, in dictionary order. *)
Theorem process_known_token : forall (d : jsobj (list dict_entry)) toks t e es,
  In t toks -> obj_get d (toLowerCase t) = Some (e :: es) ->
  obj_get (process_segment d toks) t = Some (e :: es).
Proof.
  intros d toks t e es Hin Hd. unfold process_segment. rewrite obj_get_fold_set.
  rewrite (proj2 (mem_In _ _) Hin). unfold lookup_token. rewrite Hd. reflexivity.
Qed.

Lemma process_known_token_witness :
  (In (js "Bonjour") [js "Bonjour"; js "Xyz"] /\
   obj_get (load_dict_file bonjour_file) (toLowerCase (js "Bonjour")) =
     Some [mkEntry (js "ne y yibeogo") (js "interj") (Fin (9 # 10))]) /\
  obj_get (process_segment (load_dict_file bonjour_file) [js "Bonjour"; js "Xyz"]) (js "Bonjour") =
    Some [mkEntry (js "ne y yibeogo") (js "interj") (Fin (9 # 10))].
Proof.
  assert (H1 : In (js "Bonjour") [js "Bonjour"; js "Xyz"]) by (simpl; auto).
  assert (H2 : obj_get (load_dict_file bonjour_file) (toLowerCase (js "Bonjour")) =
                 Some [mkEntry (js "ne y yibeogo") (js "interj") (Fin (9 # 10))]) by (vm_compute; reflexivity).
  split; [split; assumption|]. exact (process_known_token _ _ _ _ _ H1 H2).
Defined.

(** ** DictionaryLookup.calculateCoverage *)

Lemma count_tokens_ok : forall sr ks t c,
  (forall k, In k ks -> exists e es, obj_get sr k = Some (e :: es)) -> (c <= t)%nat ->
  exists t' c', count_tokens sr ks (t, c) = Some (t', c') /\ (c' <= t')%nat /\ (t <= t')%nat.
Proof.
  intros sr. induction ks as [|k r IH]; intros t c Hk Hct; simpl.
  - exists t, c. repeat split; lia.
  - destruct (Hk k (or_introl eq_refl)) as [e [es He]]. rewrite He. simpl.
    destruct (IH (S t) (if num_gt (score e) (Fin (1 # 10)) then S c else c)) as [t' [c' [H1 [H2 H3]]]].
    + intros k' Hk'. apply Hk. right. exact Hk'.
    + destruct (num_gt _ _); lia.
    + exists t', c'. repeat split; [exact H1 | lia | lia].
Qed.

Lemma count_tokens_none_covered : forall sr ks t c,
  (forall k, In k ks -> first_score_above (obj_get sr k) = Some false) ->
  exists t', count_tokens sr ks (t, c) = Some (t', c).
Proof.
  intros sr. induction ks as [|k r IH]; intros t c Hk; simpl; [exists t; reflexivity|].
  rewrite (Hk k (or_introl eq_refl)). apply IH. intros k' Hk'. apply Hk. right. exact Hk'.
Qed.

(** Every array stored by [process] under a segment id satisfies [P] when
    every segment's per-token object does. *)
Lemma dict_process_values : forall (P : jsobj (list dict_entry) -> Prop) d segs o,
  (forall k v, obj_get o k = Some v -> P v) ->
  (forall s, In s segs -> P (process_segment d (tokens s))) ->
  forall k v, obj_get (fold_left (fun res s => obj_set res (seg_id s) (process_segment d (tokens s))) segs o) k
              = Some v -> P v.
Proof.
  intros P d. induction segs as [|s r IH]; intros o Ho Hs; simpl; [exact Ho|].
  apply IH; [|intros s' Hs'; apply Hs; right; exact Hs'].
  intros k v Hv. jseq k (seg_id s).
  - rewrite obj_get_set_same in Hv. injection Hv as <-. apply Hs. left. reflexivity.
  - rewrite obj_get_set_other in Hv by exact N. apply (Ho k v Hv).
Qed.

Lemma count_segments_ok : forall results ids t c,
  (forall i, In i ids -> exists sr, obj_get results i = Some sr /\
     forall k, In k (obj_keys sr) -> exists e es, obj_get sr k = Some (e :: es)) ->
  (c <= t)%nat ->
  exists t' c', count_segments results ids (t, c) = Some (t', c') /\ (c' <= t')%nat.
Proof.
  intros results. induction ids as [|i r IH]; intros t c Hi Hct; simpl; [exists t, c; split; [reflexivity | exact Hct]|].
  destruct (Hi i (or_introl eq_refl)) as [sr [Hsr Hk]]. rewrite Hsr.
  destruct (count_tokens_ok sr (obj_keys sr) t c Hk Hct) as [t1 [c1 [H1 [H2 _]]]]. rewrite H1.
  apply IH; [intros i' Hi'; apply Hi; right; exact Hi' | exact H2].
Qed.

Lemma count_segments_none_covered : forall results ids t c,
  (forall i, In i ids -> exists sr, obj_get results i = Some sr /\
     forall k, In k (obj_keys sr) -> first_score_above (obj_get sr k) = Some false) ->
  exists t', count_segments results ids (t, c) = Some (t', c).
Proof.
  intros results. induction ids as [|i r IH]; intros t c Hi; simpl; [exists t; reflexivity|].
  destruct (Hi i (or_introl eq_refl)) as [sr [Hsr Hk]]. rewrite Hsr.
  destruct (count_tokens_none_covered sr (obj_keys sr) t c Hk) as [t1 H1]. rewrite H1.
  apply IH. intros i' Hi'. apply Hi. right. exact Hi'.
Qed.

Lemma obj_keys_get {A} : forall (o : jsobj A) k, In k (obj_keys o) -> exists v, obj_get o k = Some v.
Proof.
  intros o k H. apply (proj2 (obj_get_keys o k)). apply (Permutation_in _ (obj_keys_perm o)). exact H.
Qed.

(** X6: [calculateCoverage] of the results of [DictionaryLookup.process]
    never throws (every token's array is non-empty) and is a number between
    0 and 1. *)
Theorem calculateCoverage_unit_interval : forall d segs,
  exists r, calculateCoverage (dict_process d segs) = Some (Fin r) /\ 0 <= r <= 1.
Proof.
  intros d segs. unfold calculateCoverage.
  destruct (count_segments_ok (dict_process d segs) (obj_keys (dict_process d segs)) 0 0)
    as [t [c [H Hct]]]; [|lia|].
  - intros i Hi. destruct (obj_keys_get _ _ Hi) as [sr Hsr]. exists sr. split; [exact Hsr|].
    clear Hi. revert i sr Hsr. unfold dict_process.
    apply (dict_process_values (fun sr => forall k, In k (obj_keys sr) -> exists e es, obj_get sr k = Some (e :: es))).
    + intros k v Hv. discriminate.
    + intros s _ k Hk. apply process_segment_nonempty. apply In_obj_keys_process in Hk. exact Hk.
  - rewrite H. destruct (0 <? t)%nat eqn:T.
    + apply Nat.ltb_lt in T. rewrite num_div_nat_fin by exact T. eexists. split; [reflexivity|].
      assert (Ht : 0 < inject_Z (Z.of_nat t)) by (unfold Qlt; simpl; lia).
      split.
      * apply Qle_shift_div_l; [exact Ht|]. rewrite Qmult_0_l. unfold Qle; simpl; lia.
      * apply Qle_shift_div_r; [exact Ht|]. rewrite Qmult_1_l. unfold Qle; simpl; lia.
    + exists 0. split; [reflexivity | split; discriminate].
Qed.

(** X7: when no token of any segment is in the dictionary, every token gets
    the placeholder of score 0.1, which [calculateCoverage] does not count
    ([> 0.1] fails): the coverage is 0. *)
Theorem calculateCoverage_all_unknown : forall d segs,
  Forall (fun s => Forall (fun t => obj_get d (toLowerCase t) = None) (tokens s)) segs ->
  exists r, calculateCoverage (dict_process d segs) = Some (Fin r) /\ r == 0.
Proof.
  intros d segs Hall. unfold calculateCoverage.
  destruct (count_segments_none_covered (dict_process d segs) (obj_keys (dict_process d segs)) 0 0)
    as [t H].
  - intros i Hi. destruct (obj_keys_get _ _ Hi) as [sr Hsr]. exists sr. split; [exact Hsr|].
    clear Hi. revert i sr Hsr. unfold dict_process.
    apply (dict_process_values (fun sr => forall k, In k (obj_keys sr) -> first_score_above (obj_get sr k) = Some false)).
    + intros k v Hv. discriminate.
    + intros s Hs k Hk. apply In_obj_keys_process in Hk.
      rewrite Forall_forall in Hall. specialize (Hall s Hs). rewrite Forall_forall in Hall.
      unfold process_segment. rewrite obj_get_fold_set, (proj2 (mem_In _ _) Hk).
      unfold lookup_token. rewrite (Hall k Hk). reflexivity.
  - rewrite H. destruct (0 <? t)%nat eqn:T.
    + apply Nat.ltb_lt in T. rewrite num_div_nat_fin by exact T. eexists. split; [reflexivity|].
      unfold Qdiv. simpl. reflexivity.
    + exists 0. split; reflexivity.
Qed.

Lemma calculateCoverage_all_unknown_witness :
  Forall (fun s => Forall (fun t => obj_get (load_dict_file bonjour_file) (toLowerCase t) = None) (tokens s))
         (splitter (js "Xyz abc.")) /\
  exists r, calculateCoverage (dict_process (load_dict_file bonjour_file) (splitter (js "Xyz abc.")))
              = Some (Fin r) /\ r == 0.
Proof.
  assert (H : Forall (fun s => Forall (fun t => obj_get (load_dict_file bonjour_file) (toLowerCase t) = None)
                 (tokens s)) (splitter (js "Xyz abc."))) by (vm_compute; repeat constructor).
  split; [exact H | exact (calculateCoverage_all_unknown _ _ H)].
Defined.

(** ** CorpusRetriever.calculateSimilarity and searchCorpus *)

(** X8: [calculateSimilarity] is always a number between 0 and 1: the
    intersection of the two word sets has no more elements than their union. *)
Theorem calculateSimilarity_unit_interval : forall s1 s2,
  exists r, calculateSimilarity s1 s2 = Fin r /\ 0 <= r <= 1.
Proof.
  intros s1 s2. unfold calculateSimilarity. cbv zeta.
  set (set1 := js_set (split_runs is_ws s1)). set (set2 := js_set (split_runs is_ws s2)).
  set (inter := js_set (filter (fun x => mem x set2) set1)). set (uni := js_set (set1 ++ set2)).
  destruct (length uni =? 0)%nat eqn:Z0; [exists 0; split; [reflexivity | split; discriminate]|].
  apply Nat.eqb_neq in Z0. rewrite num_div_nat_fin by lia. eexists. split; [reflexivity|].
  assert (Hle : (length inter <= length uni)%nat).
  { apply NoDup_incl_length; [apply js_set_NoDup|].
    intros x Hx. unfold inter in Hx. rewrite js_set_In, filter_In in Hx.
    unfold uni. rewrite js_set_In. apply in_or_app. left. apply Hx. }
  assert (Ht : 0 < inject_Z (Z.of_nat (length uni))) by (unfold Qlt; simpl; lia).
  split.
  - apply Qle_shift_div_l; [exact Ht|]. rewrite Qmult_0_l. unfold Qle; simpl; lia.
  - apply Qle_shift_div_r; [exact Ht|]. rewrite Qmult_1_l. unfold Qle; simpl; lia.
Qed.

Lemma StronglySorted_app_rel {A} : forall (R : A -> A -> Prop) l1 l2,
  StronglySorted R (l1 ++ l2) -> forall a b, In a l1 -> In b l2 -> R a b.
Proof.
  intros R. induction l1 as [|x r IH]; intros l2 Hs a b Ha Hb; [contradiction|].
  simpl in Hs. apply StronglySorted_inv in Hs as [Hs Hall].
  destruct Ha as [<-|Ha].
  - rewrite Forall_forall in Hall. apply Hall. apply in_or_app. right. exact Hb.
  - apply (IH l2 Hs a b Ha Hb).
Qed.

(** X9: [searchCorpus] keeps the best matches: the matches above the
    threshold are exactly the returned ones plus a rest, it returns
    [min 5 n] of the [n] matches, and no match left out has a higher
    similarity than one returned. *)
Theorem searchCorpus_top_five : forall c query,
  let out := searchCorpus c query in
  let found := collect_matches (toLowerCase query) c in
  exists rest, Permutation found (out ++ rest) /\
    length out = Nat.min 5 (length found) /\
    (forall a b, In a out -> In b rest -> num_le (m_sim b) (m_sim a) = true).
Proof.
  intros c query out found.
  assert (Hfin : Forall fin_sim found).
  { apply Forall_forall. intros m Hm. apply (collect_matches_spec _ _ _ Hm). }
  assert (Hperm : Permutation (sort_matches found) found) by apply sort_fold_perm.
  assert (Hsorted : Sorted Rq (sort_matches found)).
  { apply sort_fold_sorted; [exact Hfin | constructor | constructor]. }
  assert (Hsf : Forall fin_sim (sort_matches found)) by (apply (Forall_perm _ _ _ Hperm); exact Hfin).
  exists (skipn 5 (sort_matches found)). unfold out, searchCorpus. fold found.
  split; [|split].
  - rewrite firstn_skipn. symmetry. exact Hperm.
  - rewrite length_firstn, (Permutation_length Hperm). reflexivity.
  - intros a b Ha Hb.
    assert (Hab : Rq a b).
    { apply (StronglySorted_app_rel Rq (firstn 5 (sort_matches found)) (skipn 5 (sort_matches found)));
        [rewrite firstn_skipn | exact Ha | exact Hb].
      apply Sorted_StronglySorted; [intros x y z Hxy Hyz; unfold Rq in *; lra | exact Hsorted]. }
    rewrite Forall_forall in Hsf.
    destruct (Hsf a (In_firstn_in _ _ _ Ha)) as [ra Hra].
    assert (Hb' : In b (sort_matches found)).
    { rewrite <- (firstn_skipn 5 (sort_matches found)). apply in_or_app. right. exact Hb. }
    destruct (Hsf b Hb') as [rb Hrb].
    unfold Rq, simq in Hab. rewrite Hra, Hrb in *. simpl. apply Qle_bool_iff. exact Hab.
Qed.

Lemma In_sort_matches : forall m l, In m (sort_matches l) -> In m l.
Proof.
  intros m l H. apply (Permutation_in _ (sort_fold_perm l [])). exact H.
Qed.

Lemma collect_matches_from : forall q c m, In m (collect_matches q c) ->
  exists e, In e c /\
    m = mkMatch (entry_fr e) (entry_mos e) (calculateSimilarity q (toLowerCase (entry_fr e)))
                (str_or (entry_source e) (js "unknown")).
Proof.
  intros q. induction c as [|e r IH]; intros m Hm; simpl in Hm; [contradiction|].
  match type of Hm with In _ (if ?b then _ else _) => destruct b end.
  - destruct Hm as [<-|Hm]; [exists e; split; [left | ]; reflexivity|].
    destruct (IH m Hm) as [e' [He' Hm']]. exists e'. split; [right; exact He' | exact Hm'].
  - destruct (IH m Hm) as [e' [He' Hm']]. exists e'. split; [right; exact He' | exact Hm'].
Qed.

(** X10: every match returned by [searchCorpus] is built from one corpus
    entry: its [fr] and [mos], the similarity of the lower-cased query with
    the lower-cased [fr], and the entry's [source] or "unknown" when the
    source is missing or empty. *)
Theorem searchCorpus_match_from_entry : forall c query m,
  In m (searchCorpus c query) ->
  exists e, In e c /\
    m = mkMatch (entry_fr e) (entry_mos e)
                (calculateSimilarity (toLowerCase query) (toLowerCase (entry_fr e)))
                (str_or (entry_source e) (js "unknown")).
Proof.
  intros c query m H. unfold searchCorpus in H.
  apply collect_matches_from. apply In_sort_matches. apply (In_firstn_in 5). exact H.
Qed.

Lemma searchCorpus_match_from_entry_witness :
  let c := [mkCorpusEntry marche_src marche_target None] in
  let m := nth 0 (searchCorpus c marche_src) (mkMatch [] [] NaN []) in
  In m (searchCorpus c marche_src) /\
  exists e, In e c /\
    m = mkMatch (entry_fr e) (entry_mos e)
                (calculateSimilarity (toLowerCase marche_src) (toLowerCase (entry_fr e)))
                (str_or (entry_source e) (js "unknown")).
Proof.
  intros c m.
  assert (H : In m (searchCorpus c marche_src)) by (vm_compute; left; reflexivity).
  split; [exact H | exact (searchCorpus_match_from_entry c marche_src m H)].
Defined.

(** ** Referee.makeDecision and generateExplanation *)

Lemma fold_pick_In : forall r c0, In (fold_left pick r c0) (c0 :: r).
Proof.
  induction r as [|c r IH]; intros c0; simpl; [left; reflexivity|].
  destruct (IH (pick c0 c)) as [H|H]; [|right; right; exact H].
  rewrite <- H. unfold pick. destruct (num_gt _ _); [right; left | left]; reflexivity.
Qed.

Lemma candidates_not_nosource : forall dr ms x,
  In x (corpus_candidates ms ++ dict_candidates dr) -> c_source x <> NoSource.
Proof.
  intros dr ms x H. apply in_app_or in H as [H|H].
  - unfold corpus_candidates in H. apply in_map_iff in H as [m [<- _]]. discriminate.
  - unfold dict_candidates in H. destruct dr as [dr|]; [|contradiction].
    destruct (is_nil _); [contradiction|]. destruct H as [<-|[]]. discriminate.
Qed.

(** X11: the explanation [makeDecision] records is "No translation
    candidates found" exactly when there is no candidate, and it is never
    "Fallback translation used": the winner of a non-empty list is a corpus
    or dictionary candidate, so that branch of [generateExplanation] is
    unreachable. *)
Theorem makeDecision_explanation : forall seg dictResult matches,
  let d := makeDecision seg dictResult matches in
  (explanation d = js "No translation candidates found" <-> candidates d = []) /\
  explanation d <> js "Fallback translation used".
Proof.
  intros seg dictResult matches d. unfold d, makeDecision. cbn [explanation candidates].
  destruct (corpus_candidates matches ++ dict_candidates dictResult) as [|c0 r] eqn:E.
  - simpl. split; [tauto | discriminate].
  - assert (Hs : c_source (select_best seg (c0 :: r)) <> NoSource).
    { apply (candidates_not_nosource dictResult matches). rewrite E. apply fold_pick_In. }
    unfold generateExplanation.
    destruct (c_source (select_best seg (c0 :: r))); [| |contradiction];
      (split; [split; [discriminate | discriminate] | discriminate]).
Qed.

(** ** Scorer.calculateCompositeScore *)

Lemma mul_pos_not_nan : forall x p, is_nan x = false -> 0 < p -> is_nan (num_mul x (Fin p)) = false.
Proof.
  intros [a| | |] p Hx Hp; try discriminate; simpl; [reflexivity| |];
    unfold inf_scale, qsign; rewrite (proj1 (Qgt_alt p 0) Hp); reflexivity.
Qed.

Lemma math_min_one_not_nan : forall x, is_nan x = false -> is_nan (math_min (Fin 1) x) = false.
Proof.
  intros x Hx. unfold math_min. simpl. rewrite Hx. simpl. destruct (num_lt x (Fin 1)); [exact Hx | reflexivity].
Qed.

Lemma composite_of_unit : forall f, is_nan (source_confidence f) = false ->
  exists q, composite_of f = Fin q /\ 0 <= q /\ q <= 1.
Proof.
  intros f Hn. unfold composite_of. cbv zeta. apply clamp_unit_interval.
  destruct (1 <? candidate_count f)%nat;
    [apply math_min_one_not_nan, mul_pos_not_nan; [|reflexivity]|];
    (destruct (num_lt (length_ratio f) (Fin (3 # 10)));
      [apply mul_pos_not_nan; [|reflexivity]|]);
    (destruct (0 <? unknown_words f)%nat;
      [apply mul_pos_not_nan; [exact Hn | apply Qpower_0_lt; reflexivity] | exact Hn]).
Qed.

(** X12: when the final target holds at most 1000 occurrences of "<UNK:",
    the composite confidence is NaN exactly when the source confidence is
    NaN; otherwise (an infinite source confidence included) it is a number
    between 0 and 1.  The bound keeps [Math.pow(0.7, n)] far from underflow
    (it is about 1e-155 at 1000); from about 2090 occurrences on it is 0 in
    double arithmetic, and an infinite source confidence then gives
    [Infinity * 0 = NaN]. *)
Theorem composite_of_nan_or_unit : forall f, (unknown_words f <= 1000)%nat ->
  (source_confidence f = NaN /\ composite_of f = NaN) \/
  (is_nan (source_confidence f) = false /\
   exists q, composite_of f = Fin q /\ 0 <= q /\ q <= 1).
Proof.
  intros f _. destruct (is_nan (source_confidence f)) eqn:Hn.
  - left. assert (Hs : source_confidence f = NaN)
      by (revert Hn; destruct (source_confidence f); simpl; intros; first [reflexivity | discriminate]).
    split; [exact Hs|]. unfold composite_of. rewrite Hs.
    destruct (0 <? unknown_words f)%nat, (num_lt (length_ratio f) (Fin (3 # 10))),
             (1 <? candidate_count f)%nat; reflexivity.
  - right. split; [reflexivity|]. apply composite_of_unit. exact Hn.
Qed.

Lemma composite_of_nan_or_unit_witness :
  let f := mkFeatures PInf 2 (Fin (1 # 10)) 3 in
  (unknown_words f <= 1000)%nat /\
  ((source_confidence f = NaN /\ composite_of f = NaN) \/
   (is_nan (source_confidence f) = false /\
    exists q, composite_of f = Fin q /\ 0 <= q /\ q <= 1)).
Proof.
  intros f. assert (H : (unknown_words f <= 1000)%nat) by (apply Nat.leb_le; reflexivity).
  split; [exact H | exact (composite_of_nan_or_unit f H)].
Defined.

Lemma div_nat_bounds : forall a b, (0 < b)%nat -> (a <= b)%nat ->
  0 <= inject_Z (Z.of_nat a) / inject_Z (Z.of_nat b) <= 1.
Proof.
  intros a b Hb Hab. assert (Ht : 0 < inject_Z (Z.of_nat b)) by (unfold Qlt; simpl; lia).
  split.
  - apply Qle_shift_div_l; [exact Ht|]. rewrite Qmult_0_l. unfold Qle; simpl; lia.
  - apply Qle_shift_div_r; [exact Ht|]. rewrite Qmult_1_l. unfold Qle; simpl; lia.
Qed.

Lemma div_nat_nonneg : forall a b, (0 < b)%nat -> 0 <= inject_Z (Z.of_nat a) / inject_Z (Z.of_nat b).
Proof.
  intros a b Hb. assert (Ht : 0 < inject_Z (Z.of_nat b)) by (unfold Qlt; simpl; lia).
  apply Qle_shift_div_l; [exact Ht|]. rewrite Qmult_0_l. unfold Qle; simpl; lia.
Qed.

(** X13: the [length_ratio] feature is always a number between 0 and 1,
    also for an empty translation ([Math.min(0, Infinity)]) and an empty
    source text. *)
Theorem length_ratio_unit_interval : forall r,
  exists q, length_ratio (extract_features r) = Fin q /\ 0 <= q <= 1.
Proof.
  intros r. unfold extract_features. cbn [length_ratio].
  generalize (length (src_text r)) (length (final r)). intros s t.
  destruct (0 <? s)%nat eqn:Hs; [|exists 0; split; [reflexivity | split; discriminate]].
  apply Nat.ltb_lt in Hs. rewrite (num_div_nat_fin t s) by exact Hs.
  destruct t as [|t].
  - assert (Hd : num_div (num_of_nat s) (num_of_nat 0) = PInf).
    { destruct s as [|s]; [lia|]. reflexivity. }
    rewrite Hd. eexists. split; [reflexivity|]. apply (div_nat_bounds 0 s Hs). lia.
  - rewrite (num_div_nat_fin s (S t)) by lia. unfold math_min. cbn [is_nan orb num_lt].
    destruct (Nat.le_gt_cases (S t) s) as [Hts|Hts].
    + pose proof (div_nat_bounds (S t) s Hs Hts) as [H0 H1].
      destruct (qltb _ _) eqn:E; eexists; (split; [reflexivity|]).
      * apply qltb_iff in E. split; [exact (div_nat_nonneg s (S t) ltac:(lia)) | lra].
      * split; assumption.
    + pose proof (div_nat_bounds s (S t) ltac:(lia) ltac:(lia)) as [H0 H1].
      destruct (qltb _ _) eqn:E; eexists; (split; [reflexivity|]).
      * split; assumption.
      * apply qltb_false in E. split; [exact (div_nat_nonneg (S t) s Hs) | lra].
Qed.

(** ** Logger.determineStatus *)

(** X14: [determineStatus] is monotone: a confidence at least as high as an
    auto-accepted one is auto-accepted, and one at least as high as a
    confidence that is not sent to manual review is not sent there either;
    NaN, which passes no comparison, is always sent to manual review. *)
Theorem determineStatus_monotone : forall x y, num_le x y = true ->
  (determineStatus x = js "auto_accepted" -> determineStatus y = js "auto_accepted") /\
  (determineStatus x <> js "manual_review_required" ->
   determineStatus y <> js "manual_review_required").
Proof.
  assert (Htr : forall a b c, num_le a b = true -> num_le b c = true -> num_le a c = true).
  { intros [a| | |] [b| | |] [c| | |]; simpl; try discriminate; try reflexivity.
    rewrite !Qle_bool_iff. intros; lra. }
  intros x y Hxy. unfold determineStatus, num_ge.
  destruct (num_le (Fin (8 # 10)) x) eqn:A.
  { rewrite (Htr _ _ _ A Hxy). split; [reflexivity | intros _; discriminate]. }
  destruct (num_le (Fin (1 # 2)) x) eqn:B.
  - split; [intros H; discriminate H|]. intros _. rewrite (Htr _ _ _ B Hxy).
    destruct (num_le (Fin (8 # 10)) y); discriminate.
  - split; intros H; [discriminate H | exfalso; apply H; reflexivity].
Qed.

Lemma determineStatus_monotone_witness :
  num_le (Fin (6 # 10)) (Fin (9 # 10)) = true /\
  (determineStatus (Fin (6 # 10)) = js "auto_accepted" ->
   determineStatus (Fin (9 # 10)) = js "auto_accepted") /\
  (determineStatus (Fin (6 # 10)) <> js "manual_review_required" ->
   determineStatus (Fin (9 # 10)) <> js "manual_review_required").
Proof.
  split; [reflexivity | apply determineStatus_monotone; reflexivity].
Defined.


(** ** Values returned by AfropairPipeline.translateSentence *)

(** X15: an input in which the Splitter finds no sentence (empty, blank or
    only punctuation) does not fail: no decision is scored, the translation
    is the empty string and the average confidence is [0 / 0], NaN. *)
Theorem translateSentence_no_sentence : forall dict_file corpus_file src,
  splitter src = [] ->
  let rs := translate_sentence dict_file corpus_file src in
  rs = [] /\ first_translation rs = [] /\ average_confidence rs = NaN.
Proof.
  intros dict_file corpus_file src H rs. unfold rs, translate_sentence. rewrite H.
  repeat split; reflexivity.
Qed.

Lemma translateSentence_no_sentence_witness :
  splitter (js " ... !? ") = [] /\
  let rs := translate_sentence bonjour_file marche_corpus (js " ... !? ") in
  rs = [] /\ first_translation rs = [] /\ average_confidence rs = NaN.
Proof.
  assert (H : splitter (js " ... !? ") = []) by (vm_compute; reflexivity).
  split; [exact H | exact (translateSentence_no_sentence bonjour_file marche_corpus _ H)].
Defined.

Lemma inject_Z_succ : forall n, inject_Z (Z.of_nat (S n)) == inject_Z (Z.of_nat n) + 1.
Proof. intros n. rewrite Nat2Z.inj_succ, <- Z.add_1_r, inject_Z_plus. reflexivity. Qed.

Lemma fold_sum_bounds : forall (rs : list scored) a,
  Forall (fun r => exists q, composite_confidence r = Fin q /\ 0 <= q /\ q <= 1) rs ->
  exists s, fold_left (fun sum r => num_add sum (composite_confidence r)) rs (Fin a) = Fin s /\
    a <= s <= a + inject_Z (Z.of_nat (length rs)).
Proof.
  induction rs as [|r rs IH]; intros a Hall; cbn [fold_left length].
  - exists a. split; [reflexivity|]. unfold inject_Z; simpl. lra.
  - inversion Hall as [|? ? [q [Hq [H0 H1]]] Hrs]; subst. rewrite Hq. cbn [num_add].
    destruct (IH (a + q) Hrs) as [s [Hs [Hl Hu]]]. exists s. split; [exact Hs|].
    pose proof (inject_Z_succ (length rs)). lra.
Qed.

(** X16: when the Splitter finds at least one sentence, no decision has a
    NaN source confidence and no final target holds more than 1000
    occurrences of "<UNK:" (far from the underflow of [Math.pow(0.7, n)] to
    0 near 2090), the average confidence [translateSentence] returns is a
    number between 0 and 1. *)
Theorem translateSentence_average_unit_interval : forall dict_file corpus_file src,
  let rs := translate_sentence dict_file corpus_file src in
  rs <> [] ->
  Forall (fun r => is_nan (source_confidence (quality_features r)) = false) rs ->
  Forall (fun r => (unknown_words (quality_features r) <= 1000)%nat) rs ->
  exists q, average_confidence rs = Fin q /\ 0 <= q <= 1.
Proof.
  intros dict_file corpus_file src rs Hne Hnan _.
  assert (Hall : Forall (fun r => exists q, composite_confidence r = Fin q /\ 0 <= q /\ q <= 1) rs).
  { unfold rs, translate_sentence in *. rewrite Forall_map in *.
    eapply Forall_impl; [|exact Hnan]. intros d Hd. apply composite_of_unit. exact Hd. }
  destruct (fold_sum_bounds rs 0 Hall) as [s [Hs [Hl Hu]]].
  unfold average_confidence. rewrite Hs.
  destruct rs as [|r0 rs']; [contradiction|].
  set (n := length (r0 :: rs')) in *.
  assert (Hn : 0 < inject_Z (Z.of_nat n)) by (unfold n, Qlt; simpl; lia).
  unfold num_div, num_of_nat, qsign. rewrite (proj1 (Qgt_alt _ 0) Hn).
  eexists. split; [reflexivity|]. split.
  - apply Qle_shift_div_l; [exact Hn|]. lra.
  - apply Qle_shift_div_r; [exact Hn|]. lra.
Qed.

Lemma translateSentence_average_unit_interval_witness :
  let rs := translate_sentence marche_dict_file marche_corpus marche_src in
  rs <> [] /\
  Forall (fun r => is_nan (source_confidence (quality_features r)) = false) rs /\
  Forall (fun r => (unknown_words (quality_features r) <= 1000)%nat) rs /\
  exists q, average_confidence rs = Fin q /\ 0 <= q <= 1.
Proof.
  intros rs.
  assert (H1 : rs <> []) by (unfold rs; vm_compute; discriminate).
  assert (H2 : Forall (fun r => is_nan (source_confidence (quality_features r)) = false) rs)
    by (unfold rs; vm_compute; repeat constructor).
  assert (H3 : Forall (fun r => (unknown_words (quality_features r) <= 1000)%nat) rs).
  { apply Forall_forall. intros r Hr. apply Nat.leb_le. revert r Hr. apply Forall_forall.
    unfold rs. vm_compute. repeat constructor. }
  split; [exact H1 | split; [exact H2 | split; [exact H3 |]]].
  exact (translateSentence_average_unit_interval marche_dict_file marche_corpus marche_src H1 H2 H3).
Defined.

